(** * text-art: the glyph-table renderer, the bitmap rasterizer, the catalog
      ordering and the batch font loader

    A shallow embedding of [src/cfonts-renderer.ts], [src/bitmap-renderer.ts]
    and of the catalog logic of the [App] component.

    JavaScript strings are sequences of UTF-16 code units; they are modelled
    as lists of code units ([N]).  Records with string keys are finite maps
    ([gmap]) keyed by such strings; where the source looks up a plain object
    by a name that need not be one of its keys, the properties inherited
    from [Object.prototype] are modelled as well ([Cfonts.getProperty]). *)

From stdpp Require Import gmap list sets sorting strings.
From Stdlib Require Import Ascii.

Set Default Proof Using "Type".
Local Open Scope N_scope.

(** ** JavaScript strings *)

Module Js.

Abbreviation char := N (only parsing).
Abbreviation str := (list N) (only parsing).

(** The code units of an ASCII literal. *)
Fixpoint lit (s : string) : str :=
  match s with
  | EmptyString => []
  | String a r => N_of_ascii a :: lit r
  end.

Definition LT : N := 60.       (* '<' *)
Definition GT : N := 62.       (* '>' *)
Definition SLASH : N := 47.    (* '/' *)
Definition LOWER_C : N := 99.  (* 'c' *)
Definition NL : N := 10.       (* '\n' *)
Definition SPACE : N := 32.    (* ' ' *)

(** [\d] *)
Definition isDigit (c : char) : bool := (48 <=? c) && (c <=? 57).

(** [\s]: the WhiteSpace and LineTerminator code points of ECMAScript. *)
Definition isWhiteSpace (c : char) : bool :=
  ((9 <=? c) && (c <=? 13)) || (c =? 32) || (c =? 160) || (c =? 5760)
  || ((8192 <=? c) && (c <=? 8202)) || (c =? 8232) || (c =? 8233)
  || (c =? 8239) || (c =? 8287) || (c =? 12288) || (c =? 65279).

(** [s.replace(/\s+$/, '')]: the match starts at the leftmost position
    from which only white space follows. *)
Fixpoint trimTrailing (s : str) : str :=
  match s with
  | [] => []
  | c :: t => if forallb isWhiteSpace (c :: t) then [] else c :: trimTrailing t
  end.

(** Leading white space removed. *)
Fixpoint trimLeading (s : str) : str :=
  match s with
  | [] => []
  | c :: t => if isWhiteSpace c then trimLeading t else c :: t
  end.

(** [String.prototype.trim] *)
Definition trim (s : str) : str := trimTrailing (trimLeading s).

(** [String.prototype.includes] *)
Definition includes (s q : str) : bool :=
  existsb (λ i, bool_decide (take (length q) (drop i s) = q))
          (seq 0 (S (length s))).

(** The outcome of a call that may throw; the thrown value is never
    inspected by this program. *)
Inductive completion (A : Type) : Type :=
  | Normal (a : A)
  | Throw.
Arguments Normal {A} a.
Arguments Throw {A}.

Global Instance completion_bind : MBind completion := λ A B k m,
  match m with
  | Normal a => k a
  | Throw => Throw
  end.

(** [try { return c } catch { return d }] *)
Definition try_catch {A} (c : completion A) (d : A) : A :=
  match c with
  | Normal a => a
  | Throw => d
  end.

(** [Array.prototype.join] on an array of strings. *)
Fixpoint join (sep : str) (rows : list str) : str :=
  match rows with
  | [] => []
  | [r] => r
  | r :: rs => r ++ sep ++ join sep rs
  end.

(** [a[i] || d] for an array of strings: a missing element ([undefined])
    and the empty string are both falsy. *)
Definition at_or (a : list str) (i : nat) (d : str) : str :=
  match a !! i with
  | Some (c :: r) => c :: r
  | _ => d
  end.

(** [s || null] for a string. *)
Definition or_null (s : str) : option str :=
  match s with
  | [] => None
  | _ => Some s
  end.

(** [String.prototype.split] on the line break, for reading rendered blocks
    row by row. *)
Fixpoint rows_of (s : str) : list str :=
  match s with
  | [] => [[]]
  | c :: t =>
      if c =? NL then [] :: rows_of t
      else match rows_of t with
           | r :: rs => (c :: r) :: rs
           | [] => [[c]]
           end
  end.

End Js.

(** ** The glyph-table renderer ([src/cfonts-renderer.ts]) *)

Module Cfonts.
Import Js.

Record CfontsFont := {
  chars : gmap (list N) (list str);
  lines : nat;
  buffer : list str;
  letterspace : option (list str);
  letterspace_size : nat;
  colors : nat
}.

(** Number of leading code units matching [\d]. *)
Fixpoint digitRun (s : str) : nat :=
  match s with
  | c :: t => if isDigit c then S (digitRun t) else 0%nat
  | [] => 0%nat
  end.

(** [c\d+>] anchored at the head of [s]: the length of the match. *)
Definition tagBody (s : str) : option nat :=
  match s with
  | c :: t =>
      if c =? LOWER_C then
        match digitRun t with
        | O => None
        | S d =>
            match drop (S d) t with
            | g :: _ => if g =? GT then Some (S d + 2)%nat else None
            | [] => None
            end
        end
      else None
  | [] => None
  end.

(** [<\/?c\d+>] anchored at the head of [s]: the length of the match. *)
Definition tagAt (s : str) : option nat :=
  match s with
  | c :: t =>
      if c =? LT then
        match t with
        | c' :: t' =>
            if c' =? SLASH then (λ n, n + 2)%nat <$> tagBody t'
            else S <$> tagBody t
        | [] => None
        end
      else None
  | [] => None
  end.

(** The global replace: scan left to right; [skip] counts the code units of
    the current match that are still to be dropped. *)
Fixpoint stripFrom (skip : nat) (s : str) : str :=
  match s with
  | [] => []
  | c :: t =>
      match skip with
      | S k => stripFrom k t
      | O =>
          match tagAt (c :: t) with
          | Some n => stripFrom (n - 1) t
          | None => c :: stripFrom 0 t
          end
      end
  end.

(** [str.replace(/<\/?c\d+>/g, '')] *)
Definition stripColorTags (s : str) : str := stripFrom 0 s.

(** [for (let line = 0; line < lineCount; line++) outputLines[line] += f(line)] *)
Definition appendRows (f : nat → str) (lineCount : nat) (outputLines : list str)
  : list str :=
  foldl (λ out line, alter (λ row, row ++ f line) line out)
        outputLines (seq 0 lineCount).

(** The fragment appended for a character without glyph data:
    [letterspace ? stripColorTags(letterspace[line] || '  ') : '  '] *)
Definition spacing (font : CfontsFont) (line : nat) : str :=
  match letterspace font with
  | Some ls => stripColorTags (at_or ls line [SPACE; SPACE])
  | None => [SPACE; SPACE]
  end.

(** The fragment appended after a glyph that is not the last character:
    [stripColorTags(letterspace[line] || '')], when [letterspace] is there. *)
Definition letterGap (font : CfontsFont) (line : nat) : str :=
  match letterspace font with
  | Some ls => stripColorTags (at_or ls line [])
  | None => []
  end.

(** [stripColorTags(charData[line] || '')] *)
Definition glyphRow (charData : list str) (line : nat) : str :=
  stripColorTags (at_or charData line []).

(** One iteration of the loop over [charIdx]: [ch = input[charIdx]] and
    [charData = chars[ch]].  The branch for [!charData] ends with
    [continue], so the letter spacing is only reached from the glyph
    branch. *)
Definition renderChar (font : CfontsFont) (input : str)
    (outputLines : list str) (charIdx : nat) : list str :=
  match input !! charIdx with
  | None => outputLines (* not reached: [charIdx < input.length] *)
  | Some ch =>
      match chars font !! [ch] with
      | None => appendRows (spacing font) (lines font) outputLines
      | Some charData =>
          let out := appendRows (glyphRow charData) (lines font) outputLines in
          if bool_decide (charIdx < length input - 1)%nat
             && bool_decide (is_Some (letterspace font))
          then appendRows (letterGap font) (lines font) out
          else out
      end
  end.

(** The row accumulators after the loop:
    [outputLines = Array.from({ length: lineCount }, () => '')], then one
    iteration for [charIdx = 0 .. input.length - 1]. *)
Definition compose (font : CfontsFont) (input : str) : list str :=
  foldl (renderChar font input) (replicate (lines font) [])
        (seq 0 (length input)).

(** What the character [ch] at position [idx] of an input of length [n]
    contributes to row [line]. *)
Definition cell (font : CfontsFont) (n line idx : nat) (ch : N) : str :=
  match chars font !! [ch] with
  | None => spacing font line
  | Some charData =>
      glyphRow charData line
      ++ (if bool_decide (idx < n - 1)%nat then letterGap font line else [])
  end.

Definition rowOf (font : CfontsFont) (input : str) (line : nat) : str :=
  concat (imap (cell font (length input) line) input).

(** The letter-spacing rule as the specification words it: the spacing
    template follows every character but the last, whether the character
    has a glyph or is rendered as spacing. *)
Definition cellEvery (font : CfontsFont) (n line idx : nat) (ch : N) : str :=
  match chars font !! [ch] with
  | None => spacing font line
  | Some charData => glyphRow charData line
  end
  ++ (if bool_decide (idx < n - 1)%nat then letterGap font line else []).

Definition rowEvery (font : CfontsFont) (input : str) (line : nat) : str :=
  concat (imap (cellEvery font (length input) line) input).

(** [outputLines.map(line => line.replace(/\s+$/, '')).join('\n')] for the
    accumulators of [input]. *)
Definition joined (font : CfontsFont) (input : str) : str :=
  join [NL] (trimTrailing <$> compose font input).

(** The names of the properties of [Object.prototype] (ECMA-262, 20.1.3
    and B.2.2).  [CFONTS_DATA] is a plain object, so [CFONTS_DATA[fontName]]
    finds them when [fontName] is not a key of the table.  Their values are
    functions, or the prototype itself for [__proto__]: they are truthy and
    have no property [chars], [lines] or [letterspace]. *)
Definition OBJECT_PROTOTYPE_NAMES : list str :=
  [lit "constructor"; lit "hasOwnProperty"; lit "isPrototypeOf";
   lit "propertyIsEnumerable"; lit "toLocaleString"; lit "toString";
   lit "valueOf"; lit "__proto__"; lit "__defineGetter__";
   lit "__defineSetter__"; lit "__lookupGetter__"; lit "__lookupSetter__"].

Inductive Property :=
  | OwnFont (font : CfontsFont)
  | Inherited
  | Undefined.

(** [CFONTS_DATA[fontName]] *)
Definition getProperty (CFONTS_DATA : gmap (list N) CfontsFont)
    (fontName : str) : Property :=
  match CFONTS_DATA !! fontName with
  | Some font => OwnFont font
  | None =>
      if bool_decide (fontName ∈ OBJECT_PROTOTYPE_NAMES) then Inherited
      else Undefined
  end.

Section Render.
(** [CFONTS_DATA] is generated at build time and [toUpperCase] is the
    Unicode case mapping of the engine: both are parameters.  [lines] is
    taken to be a natural number. *)
Variable CFONTS_DATA : gmap (list N) CfontsFont.
Variable toUpperCase : str → str.

(** [renderCfonts] with [CFONTS_DATA[fontName]] looked up among the keys of
    the table only: what the function does for every name of the parameter
    type [CfontName], and for every name that is not the name of a property
    of [Object.prototype]. *)
Definition renderCfonts (text : str) (fontName : str) : option str :=
  match CFONTS_DATA !! fontName with
  | None => None
  | Some font =>
      let input := toUpperCase text in
      let outputLines := compose font input in
      let result := join [NL] (trimTrailing <$> outputLines) in
      or_null result
  end.

(** [renderCfonts(text, fontName)] for any string [fontName], with the
    property lookup of a plain object.  For an inherited property [font] is
    truthy and [chars], [lineCount] and [letterspace] are [undefined]:
    [Array.from({ length: undefined })] is the empty array, the first
    [chars[ch]] throws a TypeError, and without a character the empty
    joined string gives null. *)
Definition renderCfontsCall (text : str) (fontName : str)
  : completion (option str) :=
  match getProperty CFONTS_DATA fontName with
  | Undefined => Normal None
  | OwnFont font =>
      let input := toUpperCase text in
      let outputLines := compose font input in
      let result := join [NL] (trimTrailing <$> outputLines) in
      Normal (or_null result)
  | Inherited =>
      match toUpperCase text with
      | [] => Normal None
      | _ :: _ => Throw
      end
  end.
End Render.

(** The case mapping on ASCII text. *)
Definition asciiUpper (s : str) : str :=
  map (λ c, if (97 <=? c) && (c <=? 122) then c - 32 else c) s.

(** The font of the specification's scenario: two rows, one glyph. *)
Definition scenarioFont : CfontsFont := {|
  chars := {[ lit "A" := [lit "/\"; lit "/  \"] ]};
  lines := 2;
  buffer := [[]; []];
  letterspace := Some [lit "  "; lit "  "];
  letterspace_size := 2;
  colors := 1
|}.

(** The same font with a spacing template whose rows are empty. *)
Definition tightFont : CfontsFont := {|
  chars := chars scenarioFont;
  lines := 2;
  buffer := [[]; []];
  letterspace := Some [[]; []];
  letterspace_size := 0;
  colors := 1
|}.

Definition scenarioData : gmap (list N) CfontsFont :=
  {[ lit "demo" := scenarioFont; lit "tight" := tightFont ]}.

End Cfonts.

(** ** The bitmap rasterizer ([src/bitmap-renderer.ts]) *)

Module Bitmap.
Import Js.

Record Style := {
  name : str;
  displayName : str;
  onChar : str;
  offChar : str
}.

Definition BITMAP_STYLES : list Style := [
  {| name := lit "bitmap-block"; displayName := lit "Bitmap Block";
     onChar := [9608]; offChar := lit " " |};
  {| name := lit "bitmap-hash"; displayName := lit "Bitmap Hash";
     onChar := lit "#"; offChar := lit " " |};
  {| name := lit "bitmap-dot"; displayName := lit "Bitmap Dot";
     onChar := [9679]; offChar := [183] |};
  {| name := lit "bitmap-star"; displayName := lit "Bitmap Star";
     onChar := [9733]; offChar := [183] |};
  {| name := lit "bitmap-at"; displayName := lit "Bitmap @";
     onChar := lit "@"; offChar := lit " " |};
  {| name := lit "bitmap-slash"; displayName := lit "Bitmap Slash";
     onChar := lit "/"; offChar := lit " " |};
  {| name := lit "bitmap-zero-one"; displayName := lit "Bitmap Binary";
     onChar := lit "1"; offChar := lit "0" |};
  {| name := lit "bitmap-braille"; displayName := lit "Bitmap Braille";
     onChar := [10495]; offChar := [10240] |};
  {| name := lit "bitmap-shade"; displayName := lit "Bitmap Shade";
     onChar := [9617]; offChar := lit " " |};
  {| name := lit "bitmap-cross"; displayName := lit "Bitmap Cross";
     onChar := [9580]; offChar := lit " " |}
].

Definition BITMAP_STYLE_NAMES : list str := name <$> BITMAP_STYLES.

(** [BITMAP_STYLES.find(s => s.name === styleName)] *)
Definition findStyle (styleName : str) : option Style :=
  find (λ s, bool_decide (name s = styleName)) BITMAP_STYLES.

Abbreviation matrix := (list (list bool)) (only parsing).

Section Rasterizer.
(** The [bitmapit] package is an external library; only its declaration
    file is part of the repository.  A generator object, its construction
    and its methods are parameters.  [generateText] and [toAscii] read the
    generator and do not change it. *)
Variable Generator : Type.
(** [new BitmapFontGenerator({ width: 8, height: 8, spacing: 1 })] *)
Variable construct : completion Generator.
(** The loop calling [defineCharacter] for every entry of [defaultFont]:
    the object when the loop ends, and whether it ended by an exception. *)
Variable defineDefaultFont : Generator → Generator * bool.
Variable generateText : Generator → str → completion (option matrix).
Variable toAscii : Generator → matrix → str → str → completion str.

(** [getGenerator], threading the module variable [generator]. *)
Definition getGenerator (generator : option Generator)
  : completion Generator * option Generator :=
  match generator with
  | Some g => (Normal g, generator)
  | None =>
      match construct with
      | Throw => (Throw, None)
      | Normal g0 =>
          let '(g, threw) := defineDefaultFont g0 in
          (if threw : bool then Throw else Normal g, Some g)
      end
  end.

(** The statements after [getGenerator()] inside the [try] block. *)
Definition rasterize (style : Style) (text : str) (gen : Generator)
  : completion (option str) :=
  bitmap ← generateText gen text;
  match bitmap with
  | None => Normal None
  | Some bitmap =>
      if bool_decide (length bitmap = 0%nat) then Normal None
      else
        result ← toAscii gen bitmap (onChar style) (offChar style);
        Normal (or_null result)
  end.

Definition renderBitmap (generator : option Generator)
    (text styleName : str) : option str * option Generator :=
  match findStyle styleName with
  | None => (None, generator)
  | Some style =>
      let '(gen, generator') := getGenerator generator in
      (try_catch (g ← gen; rasterize style text g) None, generator')
  end.
End Rasterizer.

(** Modelled from the spec: the body of [BitmapFontGenerator.toAscii], which
    is library code outside the repository.  The spec words it as
    "substituting the style's onChar for true cells and offChar for false
    cells, one output row per matrix row". *)
Definition toAsciiSpec (bitmap : matrix) (on off : str) : str :=
  join [NL] ((λ row, concat ((λ b : bool, if b then on else off) <$> row))
             <$> bitmap).

(** Modelled from the spec: two pixel matrices side by side, which is part
    of [BitmapFontGenerator.generateText], library code outside the
    repository.  The spec words it as "arranges per-character pixel
    matrices horizontally with fixed inter-character spacing (1 column)". *)
Definition beside (a b : matrix) : matrix :=
  zip_with (λ ra rb : list bool, ra ++ false :: rb) a b.

(** Modelled from the spec: the matrices of the matched characters arranged
    in a row, "to produce one combined 2D boolean matrix"; the matrix is
    "empty" when "no characters matched". *)
Fixpoint arrange (glyphs : list matrix) : matrix :=
  match glyphs with
  | [] => []
  | [g] => g
  | g :: rest => beside g (arrange rest)
  end.

(** Modelled from the spec: the body of [BitmapFontGenerator.generateText],
    which is library code outside the repository, on a generator that is
    the table of its registered patterns.  The characters that have a
    pattern are the matched ones. *)
Definition generateTextSpec (patterns : gmap N matrix) (text : str)
  : completion (option matrix) :=
  Normal (Some (arrange (omap (λ ch, patterns !! ch) text))).

(** The conversion for one-unit display characters: a code unit per cell. *)
Definition paint (x y : N) (m : matrix) : str :=
  join [NL] ((λ row : list bool, (λ b : bool, if b then x else y) <$> row)
             <$> m).

(** Replacing every occurrence of the one-unit strings [a.onChar] and
    [a.offChar] by [b.onChar] and [b.offChar]. *)
Definition restyle (a b : Style) (s : str) : str :=
  concat ((λ c, if bool_decide ([c] = onChar a) then onChar b
                else if bool_decide ([c] = offChar a) then offChar b
                else [c]) <$> s).

(** What two results of [renderBitmap], for the styles [a] and [b], have in
    common: both null, or the same number of rows, the same length in every
    row, and [b]'s result is [a]'s with the display characters replaced. *)
Definition sameGeometry (a b : Style) (ra rb : option (list N)) : Prop :=
  (ra = None ∧ rb = None)
  ∨ ∃ sa sb, ra = Some sa ∧ rb = Some sb
      ∧ length (rows_of sa) = length (rows_of sb)
      ∧ length <$> rows_of sa = length <$> rows_of sb
      ∧ restyle a b sa = sb.

Definition styleHash : Style :=
  {| name := lit "bitmap-hash"; displayName := lit "Bitmap Hash";
     onChar := lit "#"; offChar := lit " " |}.

Definition styleBinary : Style :=
  {| name := lit "bitmap-zero-one"; displayName := lit "Bitmap Binary";
     onChar := lit "1"; offChar := lit "0" |}.

(** A two-row pixel font with patterns for [H] and [I], for examples: the
    patterns of the characters side by side, one blank column between them;
    a character without pattern throws, the empty text gives the empty
    matrix. *)
Definition demoFont : gmap N matrix :=
  {[ 72 := [[true; false; true]; [true; true; true]];
     73 := [[true]; [true]] ]}.

Fixpoint demoRow (g : gmap N matrix) (r : nat) (text : str)
  : option (list bool) :=
  match text with
  | [] => Some []
  | c :: t =>
      match g !! c with
      | Some pattern =>
          match pattern !! r, demoRow g r t with
          | Some row, Some rest =>
              Some (row ++ match t with [] => [] | _ => [false] end ++ rest)
          | _, _ => None
          end
      | None => None
      end
  end.

Definition demoGenerateText (g : gmap N matrix) (text : str)
  : completion (option matrix) :=
  match text with
  | [] => Normal (Some [])
  | _ =>
      match demoRow g 0 text, demoRow g 1 text with
      | Some r0, Some r1 => Normal (Some [r0; r1])
      | _, _ => Throw
      end
  end.

Definition demoToAscii (g : gmap N matrix) (bitmap : matrix) (on off : str)
  : completion str :=
  Normal (toAsciiSpec bitmap on off).

Definition demoRender : option (gmap N matrix) → str → str
    → option str * option (gmap N matrix) :=
  renderBitmap (gmap N matrix) (Normal ∅) (λ _, (demoFont, false))
    demoGenerateText demoToAscii.

(** [getBitmapDisplayName] *)
Definition getBitmapDisplayName (styleName : str) : str :=
  match findStyle styleName with
  | Some style =>
      match displayName style with
      | [] => styleName
      | d => d
      end
  | None => styleName
  end.

End Bitmap.

(** ** The catalog of the [App] component *)

Module Catalog.
Import Js.

Inductive LibraryFilter := all | only_figlet | only_cfonts | only_bitmap.
Inductive Source := figlet | cfonts | bitmap.

Global Instance Source_eq_dec : EqDecision Source.
Proof. solve_decision. Defined.
Global Instance LibraryFilter_eq_dec : EqDecision LibraryFilter.
Proof. solve_decision. Defined.

(** The string behind a source tag, for [e.source.includes(q)]. *)
Definition tag (s : Source) : str :=
  match s with
  | figlet => lit "figlet"
  | cfonts => lit "cfonts"
  | bitmap => lit "bitmap"
  end.

Record FontEntry := {
  name : str;
  renderKey : str;
  source : Source;
  featured : bool;
  displayName : str
}.

(** The table of [getCfontsDisplayName]. *)
Definition names : gmap (list N) str :=
  list_to_map [
    (lit "3d", lit "3D"); (lit "block", lit "Block");
    (lit "chrome", lit "Chrome"); (lit "console", lit "Console");
    (lit "grid", lit "Grid"); (lit "huge", lit "Huge");
    (lit "pallet", lit "Pallet"); (lit "shade", lit "Shade");
    (lit "simple", lit "Simple"); (lit "simple3d", lit "Simple 3D");
    (lit "simpleBlock", lit "Simple Block"); (lit "slick", lit "Slick");
    (lit "tiny", lit "Tiny") ].

(** [names[fontName] || fontName] *)
Definition getCfontsDisplayName (fontName : str) : str :=
  match names !! fontName with
  | Some (c :: r) => c :: r
  | _ => fontName
  end.

(** [Array.prototype.sort(comparefn)], modelled as a stable insertion sort:
    the elements are taken in array order and each one is compared, as the
    first argument of [comparefn], with elements that came before it; it is
    placed in front of the first one it is smaller than.  This is the
    sorted array of every engine when [comparefn] is a consistent
    comparison function; for any other, it is the array of one engine among
    others ([mergeRuns] below is another). *)
Fixpoint insert {A} (comparefn : A → A → Z) (x : A) (sorted : list A)
  : list A :=
  match sorted with
  | [] => [x]
  | y :: r =>
      if (comparefn x y <? 0)%Z then x :: y :: r
      else y :: insert comparefn x r
  end.

Definition sort {A} (comparefn : A → A → Z) (a : list A) : list A :=
  foldl (λ sorted x, insert comparefn x sorted) [] a.




Section Displayed.
(** [FEATURED_FONTS] and [CFONTS_NAMES] are generated assets;
    [toLowerCase] and [localeCompare] belong to the engine. *)
Variable FEATURED_FONTS : list str.
Variable CFONTS_NAMES : list str.
Variable toLowerCase : str → str.
Variable localeCompare : str → str → Z.

Definition figletEntry (name : str) : FontEntry :=
  {| name := name; renderKey := name; source := figlet;
     featured := bool_decide (name ∈ FEATURED_FONTS);
     displayName := name |}.

Definition cfontsEntry (name : str) : FontEntry :=
  {| name := name; renderKey := name; source := cfonts;
     featured := false; displayName := getCfontsDisplayName name |}.

Definition bitmapEntry (s : Bitmap.Style) : FontEntry :=
  {| name := Bitmap.name s; renderKey := Bitmap.name s; source := bitmap;
     featured := false; displayName := Bitmap.displayName s |}.

(** The entries pushed for the active library tab, in push order.
    [loadedFonts] lists the loaded set in its iteration order. *)
Definition collected (libraryFilter : LibraryFilter) (loadedFonts : list str)
  : list FontEntry :=
  (if bool_decide (libraryFilter = all ∨ libraryFilter = only_figlet)
   then figletEntry <$> loadedFonts else [])
  ++ (if bool_decide (libraryFilter = all ∨ libraryFilter = only_cfonts)
      then cfontsEntry <$> CFONTS_NAMES else [])
  ++ (if bool_decide (libraryFilter = all ∨ libraryFilter = only_bitmap)
      then bitmapEntry <$> Bitmap.BITMAP_STYLES else []).

(** [e.displayName.toLowerCase().includes(q) || e.source.includes(q)] *)
Definition matches (q : str) (e : FontEntry) : bool :=
  includes (toLowerCase (displayName e)) q || includes (tag (source e)) q.

Definition searched (search : str) (entries : list FontEntry)
  : list FontEntry :=
  match trim search with
  | [] => entries
  | _ => filter (λ e, matches (toLowerCase search) e) entries
  end.

(** The comparison function handed to [sort]. *)
Definition compareEntries (libraryFilter : LibraryFilter)
    (a b : FontEntry) : Z :=
  if featured a && negb (featured b) then (-1)%Z
  else if negb (featured a) && featured b then 1%Z
  else if bool_decide (libraryFilter = all)
          && bool_decide (source a ≠ source b)
       then (if bool_decide (source a = figlet) then (-1)%Z else 1%Z)
  else localeCompare (displayName a) (displayName b).

(** The order the catalog is read in: the libraries in push order. *)
Definition libraryRank (s : Source) : nat :=
  match s with
  | figlet => 0
  | cfonts => 1
  | bitmap => 2
  end.

(** The comparison that ranks featured entries first, then the libraries
    by [libraryRank], then the display names by [localeCompare]. *)
Definition compareGrouped (a b : FontEntry) : Z :=
  if featured a && negb (featured b) then (-1)%Z
  else if negb (featured a) && featured b then 1%Z
  else if bool_decide (source a ≠ source b)
       then (if bool_decide (libraryRank (source a) < libraryRank (source b))%nat
             then (-1)%Z else 1%Z)
  else localeCompare (displayName a) (displayName b).

(** The group of an entry: featured entries, then each library. *)
Definition groupRank (e : FontEntry) : nat :=
  ((if featured e then 0 else 3) + libraryRank (source e))%nat.

Definition displayedFonts (libraryFilter : LibraryFilter) (search : str)
    (loadedFonts : list str) : list FontEntry :=
  sort (compareEntries libraryFilter)
       (searched search (collected libraryFilter loadedFonts)).

End Displayed.

(** A collation for examples: code units compared position by position. *)
Fixpoint unitCompare (a b : str) : Z :=
  match a, b with
  | [], [] => 0%Z
  | [], _ :: _ => (-1)%Z
  | _ :: _, [] => 1%Z
  | x :: a', y :: b' =>
      if x <? y then (-1)%Z else if y <? x then 1%Z else unitCompare a' b'
  end.

(** The case mapping on ASCII text. *)
Definition asciiLower (s : str) : str :=
  map (λ c, if (65 <=? c) && (c <=? 90) then c + 32 else c) s.



(** Example data: three loaded fonts, one of them featured, two block-text
    fonts. *)
Definition demoDisplayed (search : str) : list FontEntry :=
  displayedFonts [lit "Standard"] [lit "tiny"; lit "block"] asciiLower
    unitCompare all search [lit "Zeta"; lit "Standard"; lit "Alpha"].

End Catalog.

(** ** The batch font loader of the [App] component *)

Module Loader.
Import Js.

Definition BATCH_SIZE : nat := 20.

Record LoaderState := {
  (** [loadedFontsRef.current] *)
  loadedFontsRef : gset (list N);
  (** the arguments of the [setLoadedFonts] calls, latest first *)
  published : list (gset (list N));
  (** the arguments of the [setLoadingProgress] calls, latest first *)
  progress : list nat;
  isLoading : bool;
  (** number of [console.warn] calls *)
  warnings : nat
}.

Definition initial : LoaderState :=
  {| loadedFontsRef := ∅; published := []; progress := [];
     isLoading := true; warnings := 0%nat |}.

Section Load.
(** [FIGLET_FONT_NAMES] and [FEATURED_FONTS] are generated assets.
    [fontModules] maps a module path to the outcome of awaiting its
    loader; [parseFont] is [figlet.parseFont].  [cancelled k] is the value
    of the flag [cancelled] once [k] awaits have completed: the flag is
    only written by the effect's cleanup, which can only run while the
    loader is suspended. *)
Variable FIGLET_FONT_NAMES : list str.
Variable FEATURED_FONTS : list str.
Variable FontData : Type.
Variable fontModules : gmap (list N) (completion FontData).
Variable parseFont : str → FontData → completion unit.
Variable cancelled : nat → bool.

Definition modulePath (fontName : str) : str :=
  lit "/node_modules/figlet/importable-fonts/" ++ fontName ++ lit ".js".

(** Whether the body of the [try] of one font reaches
    [loadedFontsRef.current.add(fontName)]. *)
Definition loads (fontName : str) : bool :=
  match fontModules !! modulePath fontName with
  | None => false
  | Some Throw => false
  | Some (Normal module) =>
      match parseFont fontName module with
      | Normal _ => true
      | Throw => false
      end
  end.

(** One element of [batch.map(async (fontName) => ...)]: the name is added
    to the set, or a warning is logged. *)
Definition loadFont (st : LoaderState) (fontName : str) : LoaderState :=
  if loads fontName
  then {| loadedFontsRef := {[ fontName ]} ∪ loadedFontsRef st;
          published := published st; progress := progress st;
          isLoading := isLoading st; warnings := warnings st |}
  else {| loadedFontsRef := loadedFontsRef st;
          published := published st; progress := progress st;
          isLoading := isLoading st; warnings := S (warnings st) |}.

(** [loadFontBatch]: the loads of one batch run concurrently and are
    awaited jointly; each adds its own name, so the set after the batch
    does not depend on the order in which they finish. *)
Definition loadFontBatch (batch : list str) (st : LoaderState)
  : LoaderState :=
  foldl loadFont st batch.

(** [setLoadedFonts(new Set(loadedFontsRef.current));
     setLoadingProgress(n)] *)
Definition publish (n : nat) (st : LoaderState) : LoaderState :=
  {| loadedFontsRef := loadedFontsRef st;
     published := loadedFontsRef st :: published st;
     progress := n :: progress st;
     isLoading := isLoading st; warnings := warnings st |}.

(** [FIGLET_FONT_NAMES.filter(f => !FEATURED_FONTS.includes(f))] *)
Definition remaining : list str :=
  filter (λ f, f ∉ FEATURED_FONTS) FIGLET_FONT_NAMES.

(** The [for] loop of [loadAllFonts] from index [i], after [awaits]
    completed awaits: [if (cancelled) return], the batch
    [remaining.slice(i, i + BATCH_SIZE)], [if (cancelled) return], the two
    state updates, [i += BATCH_SIZE]; after the loop [setIsLoading(false)].
    [None]: out of fuel. *)
Fixpoint batches (fuel : nat) (i awaits : nat) (st : LoaderState)
  : option LoaderState :=
  match fuel with
  | O => None
  | S fuel' =>
      if bool_decide (i < length remaining)%nat then
        if cancelled awaits then Some st
        else
          let batch := take BATCH_SIZE (drop i remaining) in
          let st1 := loadFontBatch batch st in
          if cancelled (S awaits) then Some st1
          else
            batches fuel' (i + BATCH_SIZE) (S awaits)
              (publish (length FEATURED_FONTS + i + length batch) st1)
      else
        Some {| loadedFontsRef := loadedFontsRef st;
                published := published st; progress := progress st;
                isLoading := false; warnings := warnings st |}
  end.

(** [loadAllFonts]: the featured batch first, then the loop; the fuel is
    enough for every index below [remaining.length]. *)
Definition loadAllFonts (st : LoaderState) : option LoaderState :=
  let st1 := loadFontBatch FEATURED_FONTS st in
  if cancelled 1 then Some st1
  else batches (S (length remaining)) 0 1
         (publish (length FEATURED_FONTS) st1).
End Load.

(** Example data: forty-five one-unit font names, the first three featured,
    and a module for every font but the eighth. *)
Definition demoNames : list str := (λ i, [N.of_nat i]) <$> seq 65 45.
Definition demoFeatured : list str := take 3 demoNames.
Definition demoModules : gmap (list N) (completion unit) :=
  list_to_map ((λ f, (modulePath f, Normal ())) <$>
               (take 7 demoNames ++ drop 8 demoNames)).

Definition demoLoad : LoaderState → option LoaderState :=
  loadAllFonts demoNames demoFeatured unit demoModules
    (λ _ _, Normal ()) (λ _, false).

(** [Math.ceil(a / b)] on natural numbers. *)
Definition ceil_div (a b : nat) : nat := ((a + (b - 1)) / b)%nat.

End Loader.

(** ** Sessions of the rasterizer, the render functions of [App] and the
       font card ([FontCard]) *)

Module Session.
Import Js.

Section Calls.
Variable Generator : Type.
Variable construct : completion Generator.
Variable defineDefaultFont : Generator → Generator * bool.
Variable generateText : Generator → str → completion (option (list (list bool))).
Variable toAscii :
  Generator → list (list bool) → str → str → completion str.

(** A sequence of [renderBitmap(text, styleName)] calls, each starting from
    the module variable [generator] as the previous call left it. *)
Fixpoint renderMany (generator : option Generator) (calls : list (str * str))
  : list (option str) * option Generator :=
  match calls with
  | [] => ([], generator)
  | (text, styleName) :: rest =>
      let '(result, generator1) :=
        Bitmap.renderBitmap Generator construct defineDefaultFont generateText
          toAscii generator text styleName in
      let '(results, generator2) := renderMany generator1 rest in
      (result :: results, generator2)
  end.
End Calls.

End Session.

Module Card.
Import Js.

(** [renderFiglet] of [App]: [loaded] is [loadedFontsRef.current] and
    [textSync] is [figlet.textSync], which may throw. *)
Definition renderFiglet (loaded : gset (list N))
    (textSync : str → str → completion str) (inputText font : str)
  : option str :=
  if bool_decide (font ∈ loaded)
  then try_catch (s ← textSync inputText font; Normal (Some s)) None
  else None.

(** The state of one [FontCard]. *)
Record CardState := {
  copied : bool;
  rendered : option str;
  error : bool;
  isVisible : bool
}.

Definition initialCard : CardState :=
  {| copied := false; rendered := None; error := false; isVisible := false |}.

(** The callback of the [IntersectionObserver]. *)
Definition onIntersect (isIntersecting : bool) (st : CardState) : CardState :=
  if isIntersecting
  then {| copied := copied st; rendered := rendered st; error := error st;
          isVisible := true |}
  else st.

(** One run of the effect "render when visible or text changes";
    [outcome] is what the call [renderFn(text, renderKey)] does, and is only
    looked at when the card is visible. *)
Definition renderEffect (outcome : completion (option str)) (st : CardState)
  : CardState :=
  if isVisible st then
    match outcome with
    | Normal result =>
        {| copied := copied st; rendered := result; error := false;
           isVisible := isVisible st |}
    | Throw =>
        {| copied := copied st; rendered := None; error := true;
           isVisible := isVisible st |}
    end
  else st.

(** What the preview area of the card shows. *)
Inductive Preview :=
  | LoadingText
  | CouldNotRender
  | Art (s : list N)
  | RenderingText.

Definition preview (st : CardState) : Preview :=
  if negb (isVisible st) then LoadingText
  else if error st then CouldNotRender
  else match rendered st with
       | Some (c :: r) => Art (c :: r)
       | _ => RenderingText
       end.

(** [handleCopy]: the text handed to [navigator.clipboard.writeText], if
    any. *)
Definition handleCopy (st : CardState) : option str :=
  match rendered st with
  | Some (c :: r) => Some (c :: r)
  | _ => None
  end.

(** The library a single-library tab collects. *)
Definition tabSource (libraryFilter : Catalog.LibraryFilter)
  : Catalog.Source :=
  match libraryFilter with
  | Catalog.only_cfonts => Catalog.cfonts
  | Catalog.only_bitmap => Catalog.bitmap
  | _ => Catalog.figlet
  end.

(** [key={`${entry.source}-${entry.name}`}] *)
Definition reactKey (e : Catalog.FontEntry) : str :=
  Catalog.tag (Catalog.source e) ++ lit "-" ++ Catalog.name e.

(** What happens to a mounted card: the observer reports an intersection
    change, or the render effect runs (on a change of [isVisible], [text],
    [fontName] or [renderFn]) with the given outcome of [renderFn]. *)
Inductive Event :=
  | Intersect (isIntersecting : bool)
  | Render (outcome : completion (option (list N))).

Definition step (st : CardState) (e : Event) : CardState :=
  match e with
  | Intersect isIntersecting => onIntersect isIntersecting st
  | Render outcome => renderEffect outcome st
  end.

(** The state of a card after a sequence of events since it was mounted. *)
Definition after (events : list Event) : CardState :=
  foldl step initialCard events.

End Card.

(** * Properties *)

Import Js.

(** ** Strings *)

Lemma join_replicate_nil (n : nat) :
  join [NL] (replicate n []) = replicate (n - 1) NL.
Proof.
  induction n as [|[|n] IH]; [done..|].
  change (join [NL] (replicate (S (S n)) []))
    with (NL :: join [NL] (replicate (S n) [])).
  rewrite IH. simpl. by rewrite Nat.sub_0_r.
Qed.

Lemma join_two_has_sep (sep : str) (r1 r2 : str) (rs : list str) (c : N) :
  c ∈ sep → c ∈ join sep (r1 :: r2 :: rs).
Proof.
  intros Hc. cbn [join]. rewrite !elem_of_app. right. left. done.
Qed.

Lemma or_null_None (s : str) : or_null s = None ↔ s = [].
Proof. destruct s; simpl; split; congruence. Qed.

Lemma or_null_Some (s : str) : s ≠ [] → or_null s = Some s.
Proof. destruct s; simpl; congruence. Qed.

Lemma trimTrailing_blank (s : str) :
  forallb isWhiteSpace s = true → trimTrailing s = [].
Proof. destruct s as [|c t]; [done|]. intros H. cbn [trimTrailing]. by rewrite H. Qed.

Lemma trimTrailing_keep (pre post : str) (c : N) :
  isWhiteSpace c = false →
  trimTrailing (pre ++ c :: post) = pre ++ trimTrailing (c :: post).
Proof.
  intros Hc. induction pre as [|p pre IH]; [done|].
  change ((p :: pre) ++ c :: post) with (p :: (pre ++ c :: post)).
  cbn [trimTrailing]. rewrite IH.
  replace (forallb isWhiteSpace (p :: pre ++ c :: post)) with false; [done|].
  symmetry. apply not_true_iff_false. intros H.
  apply forallb_forall with (x := c) in H; [congruence|].
  apply in_cons, in_elt.
Qed.

Lemma trimTrailing_split (s : str) :
  ∃ ws, s = trimTrailing s ++ ws ∧ forallb isWhiteSpace ws = true.
Proof.
  induction s as [|c t (ws & Heq & Hws)]; [by exists []|].
  cbn [trimTrailing].
  destruct (forallb isWhiteSpace (c :: t)) eqn:Hall.
  - by exists (c :: t).
  - exists ws. split; [|done]. simpl. by rewrite <- Heq.
Qed.

Lemma trimTrailing_last (s : str) (c : N) :
  last (trimTrailing s) = Some c → isWhiteSpace c = false.
Proof.
  induction s as [|d t IH]; [done|].
  cbn [trimTrailing].
  destruct (forallb isWhiteSpace (d :: t)) eqn:Hall; [done|].
  destruct (trimTrailing t) as [|e r] eqn:Ht.
  - simpl. intros [= <-].
    destruct (trimTrailing_split t) as (ws & Heq & Hws).
    rewrite Ht in Heq. simpl in Heq. subst ws.
    simpl in Hall. rewrite Hws, andb_true_r in Hall. done.
  - rewrite last_cons_cons. done.
Qed.

(** ** The glyph-table renderer *)

Import Cfonts.

Lemma appendRows_S (f : nat → str) (n : nat) (out : list str) :
  appendRows f (S n) out = alter (λ row, row ++ f n) n (appendRows f n out).
Proof. unfold appendRows. by rewrite seq_S, foldl_app. Qed.

Lemma appendRows_length (f : nat → str) (n : nat) (out : list str) :
  length (appendRows f n out) = length out.
Proof.
  induction n as [|n IH]; [done|].
  by rewrite appendRows_S, length_alter.
Qed.

Lemma appendRows_lookup (f : nat → str) (n : nat) (out : list str) (line : nat) :
  appendRows f n out !! line
  = (λ row, if bool_decide (line < n)%nat then row ++ f line else row)
      <$> out !! line.
Proof.
  induction n as [|n IH].
  - unfold appendRows. simpl. by destruct (out !! line).
  - rewrite appendRows_S. destruct (decide (n = line)) as [Heq|Hne].
    + subst n. rewrite list_lookup_alter_eq, IH.
      destruct (out !! line); simpl; [|done].
      rewrite bool_decide_eq_false_2 by lia.
      rewrite bool_decide_eq_true_2 by lia. done.
    + rewrite list_lookup_alter_ne by done. rewrite IH.
      destruct (out !! line); simpl; [|done].
      f_equal. repeat case_bool_decide; (done || lia).
Qed.

Lemma renderChar_length (font : CfontsFont) (input : str) (out : list str)
    (charIdx : nat) :
  length (renderChar font input out charIdx) = length out.
Proof.
  unfold renderChar.
  destruct (input !! charIdx) as [ch|]; [|done].
  destruct (chars font !! [ch]) as [charData|];
    [|by rewrite appendRows_length].
  destruct (_ && _); by rewrite ?appendRows_length.
Qed.

Lemma renderChar_lookup (font : CfontsFont) (input : str) (out : list str)
    (charIdx line : nat) (ch : N) :
  input !! charIdx = Some ch →
  (line < lines font)%nat →
  renderChar font input out charIdx !! line
  = (λ row, row ++ cell font (length input) line charIdx ch) <$> out !! line.
Proof.
  intros Hch Hline. unfold renderChar, cell. rewrite Hch.
  destruct (chars font !! [ch]) as [charData|].
  - unfold letterGap.
    destruct (letterspace font) as [ls|] eqn:Hls; simpl.
    + case_bool_decide; simpl.
      * rewrite !appendRows_lookup. destruct (out !! line); simpl; [|done].
        rewrite bool_decide_eq_true_2 by done. by rewrite <- (assoc (++)).
      * rewrite appendRows_lookup. destruct (out !! line); simpl; [|done].
        rewrite bool_decide_eq_true_2 by done. by rewrite app_nil_r.
    + rewrite andb_false_r, appendRows_lookup.
      destruct (out !! line); simpl; [|done].
      rewrite bool_decide_eq_true_2 by done.
      by destruct (bool_decide _); rewrite app_nil_r.
  - rewrite appendRows_lookup. destruct (out !! line); simpl; [|done].
    by rewrite bool_decide_eq_true_2.
Qed.

Lemma compose_prefix (font : CfontsFont) (input : str) (k line : nat) :
  (k ≤ length input)%nat →
  (line < lines font)%nat →
  foldl (renderChar font input) (replicate (lines font) []) (seq 0 k) !! line
  = Some (concat (imap (cell font (length input) line) (take k input))).
Proof.
  intros Hk Hline. induction k as [|k IH].
  - simpl. by rewrite lookup_replicate_2.
  - destruct (lookup_lt_is_Some_2 input k) as [ch Hch]; [lia|].
    rewrite seq_S, foldl_app. simpl.
    rewrite (renderChar_lookup _ _ _ _ _ ch) by done.
    rewrite IH by lia. simpl.
    rewrite (take_S_r _ _ ch) by done.
    rewrite imap_app, concat_app. simpl.
    rewrite length_take_le by lia.
    rewrite Nat.add_0_r, app_nil_r. done.
Qed.

Lemma compose_length (font : CfontsFont) (input : str) :
  length (compose font input) = lines font.
Proof.
  unfold compose. generalize (seq 0 (length input)) as idxs.
  intros idxs. rewrite <- (length_replicate (lines font) ([] : str)) at 2.
  generalize (replicate (lines font) ([] : str)) as out.
  induction idxs as [|i idxs IH]; intros out; [done|].
  simpl. by rewrite IH, renderChar_length.
Qed.

Lemma compose_lookup (font : CfontsFont) (input : str) (line : nat) :
  (line < lines font)%nat →
  compose font input !! line = Some (rowOf font input line).
Proof.
  intros Hline. unfold compose, rowOf.
  rewrite compose_prefix by done. by rewrite firstn_all.
Qed.

Lemma compose_rows (font : CfontsFont) (input : str) :
  compose font input = rowOf font input <$> seq 0 (lines font).
Proof.
  apply list_eq. intros line.
  destruct (decide (line < lines font)%nat) as [Hlt|Hge].
  - rewrite compose_lookup by done.
    rewrite list_lookup_fmap, lookup_seq_lt by done. done.
  - rewrite (proj2 (lookup_ge_None (compose font input) line))
      by (rewrite compose_length; lia).
    symmetry. apply lookup_ge_None. rewrite length_fmap, length_seq. lia.
Qed.

Lemma renderCfonts_unfold (data : gmap (list N) CfontsFont)
    (upper : str → str) (text fontName : str) :
  renderCfonts data upper text fontName
  = match data !! fontName with
    | None => None
    | Some font => or_null (joined font (upper text))
    end.
Proof. reflexivity. Qed.

Lemma compose_nil (font : CfontsFont) :
  compose font [] = replicate (lines font) [].
Proof. done. Qed.

Lemma joined_nil (font : CfontsFont) :
  joined font [] = replicate (lines font - 1) NL.
Proof.
  unfold joined. rewrite compose_nil, fmap_replicate. simpl.
  apply join_replicate_nil.
Qed.

Lemma joined_multirow (font : CfontsFont) (input : str) :
  (2 ≤ lines font)%nat → NL ∈ joined font input.
Proof.
  intros Hl. unfold joined.
  pose proof (compose_length font input) as Hlen.
  destruct (compose font input) as [|r1 [|r2 rs]]; simpl in Hlen; try lia.
  rewrite !fmap_cons. apply join_two_has_sep. set_solver.
Qed.

Lemma joined_empty_iff (font : CfontsFont) (input : str) :
  joined font input = []
  ↔ lines font = 0%nat
    ∨ (lines font = 1%nat
       ∧ ∃ acc, compose font input = [acc]
                ∧ forallb isWhiteSpace acc = true).
Proof.
  pose proof (compose_length font input) as Hlen.
  destruct (lines font) as [|[|n]] eqn:Hl.
  - unfold joined. destruct (compose font input); [|done].
    split; [by left|done].
  - unfold joined.
    destruct (compose font input) as [|acc [|? ?]]; [done| |done].
    cbn. split.
    + intros Hnil. right. split; [done|]. exists acc. split; [done|].
      destruct (trimTrailing_split acc) as (ws & Heq & Hws).
      rewrite Hnil in Heq. by rewrite Heq.
    + intros [?|(_ & acc' & [= <-] & Hb)]; [done|].
      by apply trimTrailing_blank.
  - split.
    + intros Hnil.
      pose proof (joined_multirow font input ltac:(lia)) as Hin.
      rewrite Hnil in Hin. by apply elem_of_nil in Hin.
    + intros [?|[? _]]; lia.
Qed.

(** For a key of the table, and for a name that is not the name of a
    property of [Object.prototype], the call does not throw and is the
    lookup among the keys. *)
Lemma renderCfontsCall_key (data : gmap (list N) CfontsFont)
    (upper : str → str) (text fontName : str) :
  (data !! fontName = None → fontName ∉ OBJECT_PROTOTYPE_NAMES) →
  renderCfontsCall data upper text fontName
  = Normal (renderCfonts data upper text fontName).
Proof.
  intros Hname. unfold renderCfontsCall, getProperty, renderCfonts.
  destruct (data !! fontName) as [font|]; [done|].
  by rewrite bool_decide_eq_false_2 by auto.
Qed.

(** C4, as the code has it.  For a font name that is a key of the font data
    or is not the name of a property of [Object.prototype], the call
    [renderCfonts(text, fontName)] does not throw; it returns null exactly
    when the name is not a key of the font data or the joined string (the
    rows, each with its trailing white space removed, joined by line
    breaks) is empty; in every other case it returns that joined string.
    The joined string is empty exactly when the font has no row, or one row
    whose accumulator is white space only. *)
Theorem renderCfonts_null_iff (data : gmap (list N) CfontsFont)
    (upper : str → str) (text fontName : str) :
  (data !! fontName = None → fontName ∉ OBJECT_PROTOTYPE_NAMES) →
  (renderCfontsCall data upper text fontName = Normal None
   ↔ data !! fontName = None
     ∨ ∃ font, data !! fontName = Some font
        ∧ join [NL] (trimTrailing <$> compose font (upper text)) = [])
  ∧ (∀ s, renderCfontsCall data upper text fontName = Normal (Some s)
     ↔ ∃ font, data !! fontName = Some font
        ∧ join [NL] (trimTrailing <$> compose font (upper text)) = s
        ∧ s ≠ [])
  ∧ renderCfontsCall data upper text fontName ≠ Throw
  ∧ (∀ font, data !! fontName = Some font →
       (join [NL] (trimTrailing <$> compose font (upper text)) = []
        ↔ lines font = 0%nat
          ∨ (lines font = 1%nat
             ∧ ∃ acc, compose font (upper text) = [acc]
                      ∧ forallb isWhiteSpace acc = true))).
Proof.
  intros Hname. rewrite (renderCfontsCall_key _ _ _ _ Hname).
  rewrite renderCfonts_unfold.
  split; [|split; [|split; [done|]]].
  - destruct (data !! fontName) as [font|] eqn:Hfont.
    + change (join [NL] (trimTrailing <$> compose font (upper text)))
        with (joined font (upper text)).
      split.
      * intros [= H%or_null_None]. right. by exists font.
      * intros [?|(f & [= <-] & H)]; [done|]. f_equal.
        by apply or_null_None.
    + split; [by left|done].
  - intros s. destruct (data !! fontName) as [font|] eqn:Hfont.
    + split.
      * intros [= H]. exists font. split; [done|].
        change (join [NL] (trimTrailing <$> compose font (upper text)))
          with (joined font (upper text)).
        destruct (joined font (upper text)) as [|c r]; [done|].
        simpl in H. by injection H as <-.
      * intros (f & [= <-] & Hj & Hne). unfold joined. rewrite Hj.
        f_equal. by apply or_null_Some.
    + split; [done|]. by intros (f & ? & _).
  - intros font _. apply joined_empty_iff.
Qed.

Lemma renderCfonts_null_iff_witness :
  renderCfontsCall scenarioData asciiUpper (lit "A") (lit "nofont")
  = Normal None.
Proof.
  apply (renderCfonts_null_iff scenarioData asciiUpper (lit "A")
           (lit "nofont")).
  - intros _. apply (bool_decide_unpack _). vm_compute. exact I.
  - left. vm_compute. reflexivity.
Defined.

(** C4, as stated, fails: [constructor] is not a font of the font data, yet
    [CFONTS_DATA["constructor"]] is the truthy [Object] function, and the
    call with the text ["A"] throws a TypeError instead of returning
    null. *)
Lemma prototype_name_throws :
  scenarioData !! lit "constructor" = None
  ∧ renderCfontsCall scenarioData asciiUpper (lit "A") (lit "constructor")
    = Throw
  ∧ renderCfontsCall scenarioData asciiUpper (lit "A") (lit "constructor")
    ≠ Normal None.
Proof.
  assert (renderCfontsCall scenarioData asciiUpper (lit "A")
            (lit "constructor") = Throw) as H
    by (vm_compute; reflexivity).
  split; [vm_compute; reflexivity|]. split; [exact H|]. by rewrite H.
Qed.

(** C8.  For a font of the font data with at least two rows, [renderCfonts]
    returns a string for every input text, the empty text included: the
    joined rows contain a line break, so the result is never the empty
    string that is turned into null. *)
Theorem renderCfonts_multirow_some (data : gmap (list N) CfontsFont)
    (upper : str → str) (text fontName : str) (font : CfontsFont) :
  data !! fontName = Some font →
  (2 ≤ lines font)%nat →
  ∃ s, renderCfonts data upper text fontName = Some s ∧ NL ∈ s ∧ s ≠ [].
Proof.
  intros Hfont Hl. rewrite renderCfonts_unfold, Hfont.
  pose proof (joined_multirow font (upper text) Hl) as Hin.
  exists (joined font (upper text)).
  assert (joined font (upper text) ≠ []) as Hne
    by (intros Heq; rewrite Heq in Hin; by apply elem_of_nil in Hin).
  by rewrite or_null_Some.
Qed.

Lemma renderCfonts_multirow_some_witness :
  ∃ s, renderCfonts scenarioData asciiUpper [] (lit "demo") = Some s
       ∧ NL ∈ s ∧ s ≠ [].
Proof.
  apply (renderCfonts_multirow_some scenarioData asciiUpper [] (lit "demo")
           scenarioFont).
  - vm_compute. reflexivity.
  - simpl. lia.
Defined.

(** C5.  A font with two rows, the glyph rows [/\] and [/  \] for [A], no
    glyph for the space and the spacing template of two spaces per row
    renders ["A"] as the two glyph rows joined by a line break; it renders
    ["A "] as the same string, the spacing at the end of each row being
    stripped, and [" A"] with the two leading spaces of each row and the
    inner spaces of the second row kept.  In general, for every font of
    the font data and every text, the result of [renderCfonts] is the join
    of one row per accumulator (null when that join is empty), and each
    row is its accumulator less a suffix made of white space only, that
    does not end in white space: nothing but trailing white space is
    removed, and all of it is. *)
Theorem scenario_A_and_trimming (data : gmap (list N) CfontsFont)
    (upper : str → str) (fontName : str) (font : CfontsFont) :
  upper (lit "A") = lit "A" →
  upper (lit "A ") = lit "A " →
  upper (lit " A") = lit " A" →
  data !! fontName = Some font →
  lines font = 2%nat →
  chars font !! lit "A" = Some [lit "/\"; lit "/  \"] →
  chars font !! lit " " = None →
  letterspace font = Some [lit "  "; lit "  "] →
  renderCfonts data upper (lit "A") fontName
    = Some (lit "/\" ++ [NL] ++ lit "/  \")
  ∧ renderCfonts data upper (lit "A ") fontName
    = Some (lit "/\" ++ [NL] ++ lit "/  \")
  ∧ renderCfonts data upper (lit " A") fontName
    = Some (lit "  /\" ++ [NL] ++ lit "  /  \")
  ∧ ∀ (text fontName' : str) (font' : CfontsFont),
      data !! fontName' = Some font' →
      ∃ rows : list str,
        renderCfonts data upper text fontName' = or_null (join [NL] rows)
        ∧ length rows = lines font'
        ∧ ∀ (i : nat) (acc : str),
            compose font' (upper text) !! i = Some acc →
            ∃ row ws : str,
              rows !! i = Some row
              ∧ acc = row ++ ws
              ∧ forallb isWhiteSpace ws = true
              ∧ ∀ c, last row = Some c → isWhiteSpace c = false.
Proof.
  intros Hup Hup1 Hup2 Hfont Hlines Hchars Hspace Hls.
  change (lit "A") with [65] in *. change (lit " ") with [32] in *.
  change (lit "A ") with [65; 32] in *. change (lit " A") with [32; 65] in *.
  assert (∀ input, compose font input
                   = [rowOf font input 0; rowOf font input 1]) as Hrows.
  { intros input. by rewrite compose_rows, Hlines. }
  split; [|split; [|split]].
  - rewrite renderCfonts_unfold, Hfont, Hup. unfold joined.
    rewrite Hrows. unfold rowOf.
    cbn [imap length Nat.sub]. unfold cell.
    rewrite Hchars. vm_compute. reflexivity.
  - rewrite renderCfonts_unfold, Hfont, Hup1. unfold joined.
    rewrite Hrows. unfold rowOf.
    cbn [imap length Nat.sub]. unfold Basics.compose, cell, letterGap, spacing.
    rewrite Hchars, Hspace, Hls. vm_compute. reflexivity.
  - rewrite renderCfonts_unfold, Hfont, Hup2. unfold joined.
    rewrite Hrows. unfold rowOf.
    cbn [imap length Nat.sub]. unfold Basics.compose, cell, letterGap, spacing.
    rewrite Hchars, Hspace, Hls. vm_compute. reflexivity.
  - intros text fontName' font' Hfont'.
    exists (trimTrailing <$> compose font' (upper text)).
    split; [by rewrite renderCfonts_unfold, Hfont'|].
    split; [by rewrite length_fmap, compose_length|].
    intros i acc Hacc.
    destruct (trimTrailing_split acc) as (ws & Heq & Hws).
    exists (trimTrailing acc), ws.
    split; [by rewrite list_lookup_fmap, Hacc|].
    split; [exact Heq|]. split; [exact Hws|].
    intros c. apply trimTrailing_last.
Qed.

Lemma scenario_A_and_trimming_witness :
  renderCfonts scenarioData asciiUpper (lit "A") (lit "demo")
    = Some (lit "/\" ++ [NL] ++ lit "/  \")
  ∧ renderCfonts scenarioData asciiUpper (lit "A ") (lit "demo")
    = Some (lit "/\" ++ [NL] ++ lit "/  \")
  ∧ renderCfonts scenarioData asciiUpper (lit " A") (lit "demo")
    = Some (lit "  /\" ++ [NL] ++ lit "  /  \").
Proof.
  destruct (scenario_A_and_trimming scenarioData asciiUpper (lit "demo")
              scenarioFont) as (H1 & H2 & H3 & _);
    try (vm_compute; reflexivity).
  by repeat split.
Defined.

(** C2, as the code has it.  For a known font with a spacing template
    [ls], row [line] of the accumulators is the concatenation, over the
    input characters in order, of: for a character with glyph data, its
    stripped glyph row followed, unless the character is the last one, by
    the stripped template row (once, whatever the next character is); for
    a character without glyph data, the stripped template row alone (two
    spaces where the template row is missing or empty) and no letter
    spacing after it. *)
Theorem letterspace_after_glyphs_only (data : gmap (list N) CfontsFont)
    (upper : str → str) (text fontName : str) (font : CfontsFont)
    (ls : list str) :
  data !! fontName = Some font →
  letterspace font = Some ls →
  length (compose font (upper text)) = lines font
  ∧ (∀ line : nat, (line < lines font)%nat →
       compose font (upper text) !! line
       = Some (concat (imap (λ idx ch,
           match chars font !! [ch] with
           | Some charData =>
               stripColorTags (at_or charData line [])
               ++ (if bool_decide (idx < length (upper text) - 1)%nat
                   then stripColorTags (at_or ls line []) else [])
           | None => stripColorTags (at_or ls line [SPACE; SPACE])
           end) (upper text))))
  ∧ renderCfonts data upper text fontName
    = or_null (join [NL] (trimTrailing <$> compose font (upper text))).
Proof.
  intros Hfont Hls. split; [apply compose_length|]. split.
  - intros line Hline. rewrite compose_lookup by done.
    unfold rowOf, cell, spacing, letterGap, glyphRow. by rewrite Hls.
  - by rewrite renderCfonts_unfold, Hfont.
Qed.

Lemma letterspace_after_glyphs_only_witness :
  compose scenarioFont (asciiUpper (lit " a a")) !! 0%nat
  = Some (lit "  /\    /\").
Proof.
  destruct (letterspace_after_glyphs_only scenarioData asciiUpper
              (lit " a a") (lit "demo") scenarioFont [lit "  "; lit "  "])
    as (_ & Hrow & _).
  - vm_compute. reflexivity.
  - reflexivity.
  - rewrite Hrow by (simpl; lia). vm_compute. reflexivity.
Defined.

(** C2, as stated, fails: on the input [" A"] the code appends nothing
    between the unmapped space and the glyph, whereas a spacing template
    after every character but the last would give two more spaces. *)
Lemma letterspace_after_unmapped_fails :
  letterspace scenarioFont = Some [lit "  "; lit "  "]
  ∧ compose scenarioFont (asciiUpper (lit " A")) = [lit "  /\"; lit "  /  \"]
  ∧ rowEvery scenarioFont (asciiUpper (lit " A")) <$> seq 0 2
    = [lit "    /\"; lit "    /  \"]
  ∧ renderCfonts scenarioData asciiUpper (lit " A") (lit "demo")
    = Some (lit "  /\" ++ [NL] ++ lit "  /  \")
  ∧ compose scenarioFont (asciiUpper (lit " A"))
    ≠ rowEvery scenarioFont (asciiUpper (lit " A")) <$> seq 0 2.
Proof.
  assert (compose scenarioFont (asciiUpper (lit " A"))
          = [lit "  /\"; lit "  /  \"]) as Hcode by (vm_compute; reflexivity).
  assert (rowEvery scenarioFont (asciiUpper (lit " A")) <$> seq 0 2
          = [lit "    /\"; lit "    /  \"]) as Hspec
    by (vm_compute; reflexivity).
  split; [reflexivity|]. split; [exact Hcode|]. split; [exact Hspec|].
  split; [vm_compute; reflexivity|].
  rewrite Hcode, Hspec. vm_compute. discriminate.
Qed.

(** C3, as the code has it.  For a known font and a character whose
    upper-cased form is one code unit without glyph data (the space
    included), rendering the one-character string leaves in every row
    accumulator the spacing fragment: the stripped template row, or two
    spaces when the font has no template or the template row is missing or
    empty; and the result is what trimming and joining these spacing rows
    gives. *)
Theorem unmapped_char_is_spacing (data : gmap (list N) CfontsFont)
    (upper : str → str) (fontName : str) (font : CfontsFont) (c u : N) :
  data !! fontName = Some font →
  upper [c] = [u] →
  chars font !! [u] = None →
  compose font (upper [c]) = spacing font <$> seq 0 (lines font)
  ∧ (∀ line : nat,
       spacing font line
       = match letterspace font with
         | Some ls =>
             match ls !! line with
             | Some (x :: r) => stripColorTags (x :: r)
             | _ => [SPACE; SPACE]
             end
         | None => [SPACE; SPACE]
         end)
  ∧ renderCfonts data upper [c] fontName
    = or_null (join [NL]
        (trimTrailing <$> (spacing font <$> seq 0 (lines font)))).
Proof.
  intros Hfont Hup Hu.
  assert (compose font (upper [c]) = spacing font <$> seq 0 (lines font))
    as Hcomp.
  { rewrite compose_rows, Hup. apply list_fmap_ext. intros _ line _.
    unfold rowOf, cell. simpl. rewrite Hu. apply app_nil_r. }
  split; [done|]. split.
  - intros line. unfold spacing, at_or.
    destruct (letterspace font) as [ls|]; [|done].
    by destruct (ls !! line) as [[|x r]|].
  - rewrite renderCfonts_unfold, Hfont. unfold joined. by rewrite Hcomp.
Qed.

Lemma unmapped_char_is_spacing_witness :
  compose scenarioFont (asciiUpper [SPACE]) = [lit "  "; lit "  "]
  ∧ renderCfonts scenarioData asciiUpper [SPACE] (lit "demo") = Some [NL].
Proof.
  destruct (unmapped_char_is_spacing scenarioData asciiUpper (lit "demo")
              scenarioFont SPACE SPACE) as (Hrows & _ & Hres).
  - vm_compute. reflexivity.
  - reflexivity.
  - vm_compute. reflexivity.
  - split.
    + rewrite Hrows. vm_compute. reflexivity.
    + rewrite Hres. vm_compute. reflexivity.
Defined.

(** C3, as stated, fails: the lower-case letter [a] is not a key of the
    glyph table of the scenario font, yet ["a"] is rendered with the glyph
    of [A], because the lookup is made after the upper-case fold; the
    rendering made of spacing only would be a single line break.  And for
    a font whose template rows are empty, a space leaves two spaces in each
    accumulator, not the (empty) stripped template row. *)
Lemma absent_lowercase_renders_glyph :
  (chars scenarioFont !! lit "a" = None
   ∧ compose scenarioFont (asciiUpper (lit "a")) = [lit "/\"; lit "/  \"]
   ∧ spacing scenarioFont <$> seq 0 (lines scenarioFont)
     = [lit "  "; lit "  "]
   ∧ renderCfonts scenarioData asciiUpper (lit "a") (lit "demo")
     = Some (lit "/\" ++ [NL] ++ lit "/  \")
   ∧ or_null (join [NL]
        (trimTrailing <$> (spacing scenarioFont <$> seq 0 (lines scenarioFont))))
     = Some [NL])
  ∧ (chars tightFont !! [SPACE] = None
     ∧ letterspace tightFont = Some [[]; []]
     ∧ stripColorTags <$> [[]; []] = [[]; []]
     ∧ compose tightFont (asciiUpper [SPACE]) = [lit "  "; lit "  "]).
Proof. repeat split; vm_compute; reflexivity. Qed.

(** ** The bitmap rasterizer *)

Import Bitmap.

Lemma find_None_iff {A} (f : A → bool) (l : list A) :
  find f l = None ↔ ∀ x, x ∈ l → f x = false.
Proof.
  induction l as [|y l IH]; simpl.
  - split; [|done]. intros _ x Hx. by apply elem_of_nil in Hx.
  - destruct (f y) eqn:Hy.
    + split; [done|]. intros H. specialize (H y (list_elem_of_here _ _)).
      congruence.
    + rewrite IH. split.
      * intros H x [->|Hx]%elem_of_cons; auto.
      * intros H x Hx. apply H. by apply list_elem_of_further.
Qed.

Lemma findStyle_None (styleName : str) :
  findStyle styleName = None
  ↔ ∀ s, s ∈ BITMAP_STYLES → name s ≠ styleName.
Proof.
  unfold findStyle. rewrite find_None_iff. apply forall_proper. intros s.
  by rewrite bool_decide_eq_false.
Qed.

Section RasterizerFacts.
Context (Generator : Type) (construct : completion Generator)
        (defineDefaultFont : Generator → Generator * bool)
        (generateText : Generator → str → completion (option matrix))
        (toAscii : Generator → matrix → str → str → completion str).

Local Abbreviation getGen := (getGenerator Generator construct defineDefaultFont).
Local Abbreviation render :=
  (renderBitmap Generator construct defineDefaultFont generateText toAscii).
Local Abbreviation raster := (rasterize Generator generateText toAscii).

Lemma renderBitmap_known (generator : option Generator)
    (text styleName : str) (style : Style) :
  findStyle styleName = Some style →
  (render generator text styleName).1
  = try_catch (g ← (getGen generator).1; raster style text g) None.
Proof.
  intros Hs. unfold renderBitmap. rewrite Hs.
  by destruct (getGenerator _ _ _ generator).
Qed.

Lemma rasterize_None (style : Style) (text : str) (gen : Generator) :
  try_catch (raster style text gen) None = None
  ↔ generateText gen text = Throw
    ∨ generateText gen text = Normal None
    ∨ generateText gen text = Normal (Some [])
    ∨ ∃ bitmap, generateText gen text = Normal (Some bitmap)
        ∧ bitmap ≠ []
        ∧ (toAscii gen bitmap (onChar style) (offChar style) = Throw
           ∨ toAscii gen bitmap (onChar style) (offChar style) = Normal []).
Proof.
  unfold rasterize.
  destruct (generateText gen text) as [[bitmap|]|] eqn:Hg; simpl.
  - destruct bitmap as [|row bitmap]; simpl.
    + split; [by right; right; left|done].
    + destruct (toAscii gen _ _ _) as [result|] eqn:Ha; simpl.
      * rewrite or_null_None. split.
        -- intros ->. do 3 right. exists (row :: bitmap). eauto.
        -- intros [?|[?|[?|(b & [= <-] & _ & Hb)]]]; try done.
           rewrite Ha in Hb. by destruct Hb as [?|[= ->]].
      * split; [|done]. intros _. do 3 right. exists (row :: bitmap). eauto.
  - split; [by right; left|done].
  - split; [by left|done].
Qed.
End RasterizerFacts.

(** C7.  [renderBitmap] returns null when the style name is not the name of
    a defined style, when the generated matrix is absent or empty, and when
    the converted string is empty; an exception raised while the generator
    is obtained, by [generateText] or by [toAscii] ends in the [catch] and
    gives null as well.  These are the only ways to get null. *)
Theorem renderBitmap_null_iff (Generator : Type)
    (construct : completion Generator)
    (defineDefaultFont : Generator → Generator * bool)
    (generateText : Generator → str → completion (option matrix))
    (toAscii : Generator → matrix → str → str → completion str)
    (generator : option Generator) (text styleName : str) :
  (renderBitmap Generator construct defineDefaultFont generateText toAscii
     generator text styleName).1 = None
  ↔ (∀ s, s ∈ BITMAP_STYLES → name s ≠ styleName)
    ∨ ∃ style, findStyle styleName = Some style
        ∧ ((getGenerator Generator construct defineDefaultFont generator).1
             = Throw
           ∨ ∃ gen,
               (getGenerator Generator construct defineDefaultFont generator).1
                 = Normal gen
               ∧ (generateText gen text = Throw
                  ∨ generateText gen text = Normal None
                  ∨ generateText gen text = Normal (Some [])
                  ∨ ∃ bitmap, generateText gen text = Normal (Some bitmap)
                      ∧ bitmap ≠ []
                      ∧ (toAscii gen bitmap (onChar style) (offChar style)
                           = Throw
                         ∨ toAscii gen bitmap (onChar style) (offChar style)
                           = Normal []))).
Proof.
  destruct (findStyle styleName) as [style|] eqn:Hs.
  - rewrite (renderBitmap_known _ _ _ _ _ _ _ _ style) by done.
    assert (¬ ∀ s, s ∈ BITMAP_STYLES → name s ≠ styleName) as Hknown.
    { rewrite <- findStyle_None. congruence. }
    destruct (getGenerator _ _ _ generator).1 as [gen|] eqn:Hgen; simpl.
    + rewrite rasterize_None. split.
      * intros H. right. exists style. split; [done|]. right. by exists gen.
      * intros [?|(st & [= <-] & [?|(g & [= <-] & H)])]; done.
    + split; [|done]. intros _. right. exists style. split; [done|]. by left.
  - unfold renderBitmap. rewrite Hs. simpl. split; [|done].
    intros _. left. by apply findStyle_None.
Qed.

Lemma toAsciiSpec_units (m : matrix) (x y : N) :
  toAsciiSpec m [x] [y] = paint x y m.
Proof.
  unfold toAsciiSpec, paint. f_equal. apply list_fmap_ext. intros _ row _.
  induction row as [|b row IH]; [done|].
  rewrite !fmap_cons. simpl. rewrite IH. by destruct b.
Qed.

Lemma restyle_app (a b : Style) (s t : str) :
  restyle a b (s ++ t) = restyle a b s ++ restyle a b t.
Proof. unfold restyle. by rewrite fmap_app, concat_app. Qed.

Lemma restyle_row (a b : Style) (xa ya xb yb : N) (row : list bool) :
  onChar a = [xa] → offChar a = [ya] → onChar b = [xb] → offChar b = [yb] →
  xa ≠ ya →
  restyle a b ((λ c : bool, if c then xa else ya) <$> row)
  = (λ c : bool, if c then xb else yb) <$> row.
Proof.
  intros Ha Ha' Hb Hb' Hne. unfold restyle. rewrite Ha, Ha', Hb, Hb'.
  induction row as [|c row IH]; [done|].
  rewrite !fmap_cons. cbn [concat]. rewrite IH. destruct c.
  - by rewrite bool_decide_eq_true_2.
  - rewrite bool_decide_eq_false_2 by congruence.
    by rewrite bool_decide_eq_true_2.
Qed.

Lemma restyle_paint (a b : Style) (xa ya xb yb : N) (m : matrix) :
  onChar a = [xa] → offChar a = [ya] → onChar b = [xb] → offChar b = [yb] →
  xa ≠ ya → xa ≠ NL → ya ≠ NL →
  restyle a b (paint xa ya m) = paint xb yb m.
Proof.
  intros Ha Ha' Hb Hb' Hne Hx Hy. unfold paint.
  induction m as [|row [|row' m] IH]; [done|..].
  - simpl. by apply restyle_row.
  - rewrite !fmap_cons in *. cbn [join] in *.
    rewrite !restyle_app, IH, (restyle_row a b xa ya xb yb) by done.
    do 2 f_equal. unfold restyle. rewrite Ha, Ha'. simpl.
    rewrite !bool_decide_eq_false_2 by congruence. done.
Qed.

Lemma rows_of_row (x y : N) (row : list bool) :
  x ≠ NL → y ≠ NL →
  rows_of ((λ c : bool, if c then x else y) <$> row)
  = [(λ c : bool, if c then x else y) <$> row].
Proof.
  intros Hx Hy. induction row as [|c row IH]; [done|].
  rewrite fmap_cons. cbn [rows_of]. rewrite IH.
  destruct c; by rewrite (proj2 (N.eqb_neq _ _)).
Qed.

Lemma rows_of_row_app (x y : N) (row : list bool) (s : str) :
  x ≠ NL → y ≠ NL →
  rows_of (((λ c : bool, if c then x else y) <$> row) ++ NL :: s)
  = ((λ c : bool, if c then x else y) <$> row) :: rows_of s.
Proof.
  intros Hx Hy. induction row as [|c row IH]; [done|].
  rewrite fmap_cons. cbn [app rows_of]. rewrite IH.
  destruct c; by rewrite (proj2 (N.eqb_neq _ _)).
Qed.

Lemma rows_of_paint (x y : N) (m : matrix) :
  x ≠ NL → y ≠ NL → m ≠ [] →
  rows_of (paint x y m)
  = (λ row : list bool, (λ c : bool, if c then x else y) <$> row) <$> m.
Proof.
  intros Hx Hy Hm. unfold paint.
  induction m as [|row [|row' m] IH]; [done|..].
  - simpl. by apply rows_of_row.
  - rewrite !fmap_cons in *. cbn [join] in *.
    change ([NL] ++ ?s) with (NL :: s).
    rewrite rows_of_row_app by done. by rewrite IH.
Qed.

Lemma paint_nil_iff (x y x' y' : N) (m : matrix) :
  paint x y m = [] ↔ paint x' y' m = [].
Proof.
  assert (∀ u v, paint u v m = [] ↔ Forall (λ row, row = []) m ∧ (length m ≤ 1)%nat)
    as H.
  { intros u v. unfold paint. destruct m as [|row [|row' m]]; simpl.
    - split; [|done]. intros _. split; [constructor|lia].
    - split.
      + intros Hr%fmap_nil_inv. split; [by repeat constructor|lia].
      + intros [[-> _]%Forall_cons_1 _]. done.
    - split.
      + intros [_ Hr]%app_eq_nil. done.
      + intros [_ Hl]. lia. }
  by rewrite !H.
Qed.

Lemma BITMAP_STYLES_units (s : Style) :
  s ∈ BITMAP_STYLES →
  findStyle (name s) = Some s
  ∧ ∃ x y, onChar s = [x] ∧ offChar s = [y] ∧ x ≠ y ∧ x ≠ NL ∧ y ≠ NL.
Proof.
  unfold BITMAP_STYLES. rewrite !elem_of_cons, elem_of_nil.
  intros H. repeat (destruct H as [->|H]; [|]); [..|done];
    (split; [vm_compute; reflexivity|]);
    (eexists _, _; split; [reflexivity|]; split; [reflexivity|];
     repeat split; vm_compute; discriminate).
Qed.

Lemma findStyle_Some (styleName : str) (style : Style) :
  findStyle styleName = Some style →
  style ∈ BITMAP_STYLES ∧ name style = styleName.
Proof.
  unfold findStyle. intros [Hin Hn]%find_some. split.
  - by apply list_elem_of_In.
  - by apply bool_decide_eq_true in Hn.
Qed.

Lemma render_same_state (Generator : Type)
    (construct : completion Generator)
    (defineDefaultFont : Generator → Generator * bool)
    (generateText : Generator → str → completion (option matrix))
    (generator : option Generator) (text nameA nameB : str) (a b : Style) :
  findStyle nameA = Some a →
  findStyle nameB = Some b →
  sameGeometry a b
    (renderBitmap Generator construct defineDefaultFont generateText
       (λ _ m on off, Normal (toAsciiSpec m on off))
       generator text nameA).1
    (renderBitmap Generator construct defineDefaultFont generateText
       (λ _ m on off, Normal (toAsciiSpec m on off))
       generator text nameB).1.
Proof.
  intros HfA HfB. unfold sameGeometry.
  destruct (findStyle_Some _ _ HfA) as [Ha _].
  destruct (findStyle_Some _ _ HfB) as [Hb _].
  destruct (BITMAP_STYLES_units a Ha)
    as (_ & xa & ya & Hona & Hoffa & Hnea & Hxa & Hya).
  destruct (BITMAP_STYLES_units b Hb)
    as (_ & xb & yb & Honb & Hoffb & Hneb & Hxb & Hyb).
  rewrite (renderBitmap_known _ _ _ _ _ _ _ _ a HfA).
  rewrite (renderBitmap_known _ _ _ _ _ _ _ _ b HfB).
  destruct (getGenerator _ _ _ generator).1 as [gen|]; [|by left].
  simpl. unfold rasterize.
  destruct (generateText gen text) as [[m|]|]; [|by left..].
  simpl. destruct m as [|row m]; [by left|]. simpl.
  rewrite Hona, Hoffa, Honb, Hoffb, !toAsciiSpec_units.
  destruct (paint xa ya (row :: m)) as [|c s] eqn:Hpa.
  - left. split; [done|]. apply or_null_None.
    by apply (paint_nil_iff xa ya).
  - right. rewrite <- Hpa.
    assert (paint xb yb (row :: m) ≠ []) as Hpb.
    { intros H. apply (paint_nil_iff xa ya) in H. congruence. }
    exists (paint xa ya (row :: m)), (paint xb yb (row :: m)).
    rewrite !or_null_Some by congruence.
    assert (length <$> rows_of (paint xa ya (row :: m))
            = length <$> rows_of (paint xb yb (row :: m))) as Hlen.
    { rewrite !rows_of_paint by done. rewrite <- !list_fmap_compose.
      apply list_fmap_ext. intros _ r _. simpl. by rewrite !length_fmap. }
    split; [done|]. split; [done|]. split.
    + by rewrite <- (length_fmap length), Hlen, length_fmap.
    + split; [done|]. by apply restyle_paint.
Qed.

(** Once the generator exists, or when its making does not end by an
    exception half-way, a second call finds the generator of the first. *)
Lemma getGenerator_again (Generator : Type)
    (construct : completion Generator)
    (defineDefaultFont : Generator → Generator * bool)
    (generator : option Generator) :
  (∀ g0, generator = None → construct = Normal g0 →
         (defineDefaultFont g0).2 = false) →
  (getGenerator Generator construct defineDefaultFont
     (getGenerator Generator construct defineDefaultFont generator).2).1
  = (getGenerator Generator construct defineDefaultFont generator).1.
Proof.
  intros Hinit. destruct generator as [g|]; [done|]. simpl.
  destruct construct as [g0|]; simpl; [|done].
  specialize (Hinit g0 eq_refl eq_refl).
  destruct (defineDefaultFont g0) as [g threw]. simpl in *. by subst threw.
Qed.

Lemma renderBitmap_state (Generator : Type)
    (construct : completion Generator)
    (defineDefaultFont : Generator → Generator * bool)
    (generateText : Generator → str → completion (option matrix))
    (toAscii : Generator → matrix → str → str → completion str)
    (generator : option Generator) (text styleName : str) (style : Style) :
  findStyle styleName = Some style →
  (renderBitmap Generator construct defineDefaultFont generateText toAscii
     generator text styleName).2
  = (getGenerator Generator construct defineDefaultFont generator).2.
Proof.
  intros Hs. unfold renderBitmap. rewrite Hs.
  by destruct (getGenerator _ _ _ generator).
Qed.

(** C6.  With the conversion of the specification, two defined styles
    applied to the same text from the same generator state either both give
    null, or give strings with the same number of rows and the same length
    in every row, and the second string is the first one with [a]'s display
    characters replaced by [b]'s.  The same holds for two calls in a row,
    the second starting from the state the first has left, unless the
    making of the generator ended by an exception after the object had been
    stored. *)
Theorem styles_share_geometry (Generator : Type)
    (construct : completion Generator)
    (defineDefaultFont : Generator → Generator * bool)
    (generateText : Generator → str → completion (option matrix))
    (generator : option Generator) (text nameA nameB : str) (a b : Style) :
  findStyle nameA = Some a →
  findStyle nameB = Some b →
  let render :=
    renderBitmap Generator construct defineDefaultFont generateText
      (λ _ m on off, Normal (toAsciiSpec m on off)) in
  sameGeometry a b (render generator text nameA).1
                   (render generator text nameB).1
  ∧ ((∀ g0, generator = None → construct = Normal g0 →
            (defineDefaultFont g0).2 = false) →
     sameGeometry a b
       (render generator text nameA).1
       (render (render generator text nameA).2 text nameB).1).
Proof.
  intros HfA HfB render. subst render. cbv beta. split.
  - by apply render_same_state.
  - intros Hinit.
    rewrite (renderBitmap_state _ _ _ _ _ _ _ _ a HfA).
    rewrite (renderBitmap_known _ _ _ _ _ _ _ _ b HfB).
    rewrite getGenerator_again by done.
    rewrite <- (renderBitmap_known _ _ _ _ _ _ _ _ b HfB).
    by apply render_same_state.
Qed.

Lemma styles_share_geometry_witness :
  sameGeometry styleHash styleBinary
    (demoRender None (lit "HI") (lit "bitmap-hash")).1
    (demoRender None (lit "HI") (lit "bitmap-zero-one")).1
  ∧ sameGeometry styleHash styleBinary
      (demoRender None (lit "HI") (lit "bitmap-hash")).1
      (demoRender (demoRender None (lit "HI") (lit "bitmap-hash")).2
         (lit "HI") (lit "bitmap-zero-one")).1.
Proof.
  destruct (styles_share_geometry (gmap N matrix) (Normal ∅)
              (λ _, (demoFont, false)) demoGenerateText None (lit "HI")
              (lit "bitmap-hash") (lit "bitmap-zero-one")
              styleHash styleBinary) as [Hsame Hseq].
  - vm_compute. reflexivity.
  - vm_compute. reflexivity.
  - split; [exact Hsame|]. apply Hseq. intros g0 _ _. reflexivity.
Defined.

Example demoRender_hash :
  (demoRender None (lit "HI") (lit "bitmap-hash")).1
  = Some (lit "# # #" ++ [NL] ++ lit "### #").
Proof. vm_compute. reflexivity. Qed.

Example demoRender_binary :
  (demoRender None (lit "HI") (lit "bitmap-zero-one")).1
  = Some (lit "10101" ++ [NL] ++ lit "11101").
Proof. vm_compute. reflexivity. Qed.

Example demoRender_unmapped :
  (demoRender None (lit "H?") (lit "bitmap-hash")).1 = None.
Proof. vm_compute. reflexivity. Qed.

Example generateTextSpec_HI :
  generateTextSpec demoFont (lit "HI")
  = Normal (Some [[true; false; true; false; true];
                  [true; true; true; false; true]]).
Proof. vm_compute. reflexivity. Qed.

Example generateTextSpec_unmatched :
  generateTextSpec demoFont (lit "?") = Normal (Some []).
Proof. vm_compute. reflexivity. Qed.

(** C1, as the code has it.  For a known font, [renderCfonts] applied to
    the empty text returns null when the font has at most one row, and the
    string of [lines - 1] line breaks when it has two rows or more.
    [renderBitmap] applied to the empty text returns null for every style
    name, whatever the state of the generator: no character is matched, so
    the generated matrix is empty. *)
Theorem empty_text_renders (data : gmap (list N) CfontsFont)
    (upper : str → str) (fontName : str) (font : CfontsFont)
    (construct : completion (gmap N (list (list bool))))
    (defineDefaultFont : gmap N (list (list bool))
                         → gmap N (list (list bool)) * bool)
    (toAscii : gmap N (list (list bool)) → list (list bool) → str → str
               → completion str)
    (generator : option (gmap N (list (list bool)))) (styleName : str) :
  upper [] = [] →
  data !! fontName = Some font →
  ((lines font ≤ 1)%nat → renderCfonts data upper [] fontName = None)
  ∧ ((2 ≤ lines font)%nat →
     renderCfonts data upper [] fontName
     = Some (replicate (lines font - 1) NL))
  ∧ (renderBitmap (gmap N (list (list bool))) construct defineDefaultFont
       generateTextSpec toAscii generator [] styleName).1 = None.
Proof.
  intros Hup Hfont.
  assert (renderCfonts data upper [] fontName
          = or_null (replicate (lines font - 1) NL)) as Hr.
  { by rewrite renderCfonts_unfold, Hfont, Hup, joined_nil. }
  split; [|split].
  - intros Hl. rewrite Hr. by replace (lines font - 1)%nat with 0%nat by lia.
  - intros Hl. rewrite Hr.
    destruct (lines font - 1)%nat as [|n] eqn:Hn; [lia|done].
  - destruct (findStyle styleName) as [style|] eqn:Hs.
    + rewrite (renderBitmap_known _ _ _ _ _ _ _ _ style Hs).
      destruct (getGenerator _ _ _ generator).1 as [gen|]; [|done].
      apply rasterize_None. right. right. by left.
    + unfold renderBitmap. by rewrite Hs.
Qed.

Lemma empty_text_renders_witness :
  renderCfonts scenarioData asciiUpper [] (lit "demo") = Some [NL]
  ∧ (renderBitmap (gmap N (list (list bool))) (Normal ∅)
       (λ _, (demoFont, false)) generateTextSpec demoToAscii None []
       (lit "bitmap-hash")).1 = None.
Proof.
  destruct (empty_text_renders scenarioData asciiUpper (lit "demo")
              scenarioFont (Normal ∅) (λ _, (demoFont, false)) demoToAscii
              None (lit "bitmap-hash")) as (_ & Hcf & Hbm).
  - reflexivity.
  - vm_compute. reflexivity.
  - split; [apply Hcf; simpl; lia|exact Hbm].
Defined.

(** C1, as stated, fails: the scenario font is a known font with two rows,
    and the empty text is rendered as one line break, not as null. *)
Lemma empty_text_not_null :
  scenarioData !! lit "demo" = Some scenarioFont
  ∧ asciiUpper [] = []
  ∧ renderCfonts scenarioData asciiUpper [] (lit "demo") = Some [NL]
  ∧ renderCfonts scenarioData asciiUpper [] (lit "demo") ≠ None.
Proof.
  split; [vm_compute; reflexivity|]. split; [reflexivity|].
  assert (renderCfonts scenarioData asciiUpper [] (lit "demo") = Some [NL])
    as H by (vm_compute; reflexivity).
  split; [exact H|]. rewrite H. discriminate.
Qed.

(** ** The batch font loader *)

Import Loader.

Lemma ceil_div_step (a : nat) :
  (0 < a)%nat → ceil_div a BATCH_SIZE = S (ceil_div (a - BATCH_SIZE) BATCH_SIZE).
Proof.
  intros Ha. unfold ceil_div, BATCH_SIZE. cbn [Nat.sub].
  destruct (decide (a < 20)%nat) as [Hlt|Hge].
  - replace (a - 20)%nat with 0%nat by lia.
    change ((0 + 19) / 20)%nat with 0%nat.
    symmetry. apply (Nat.div_unique _ _ _ (a - 1)); lia.
  - replace (a + 19)%nat with ((a - 20 + 19) + 1 * 20)%nat by lia.
    rewrite Nat.div_add by lia. lia.
Qed.

Lemma ceil_div_least (a k : nat) :
  (ceil_div a BATCH_SIZE ≤ k)%nat ↔ (a ≤ k * BATCH_SIZE)%nat.
Proof.
  unfold ceil_div, BATCH_SIZE. cbn [Nat.sub].
  pose proof (Nat.div_mod_eq (a + 19) 20) as Hdm.
  pose proof (Nat.mod_upper_bound (a + 19) 20) as Hm.
  split; intros H; nia.
Qed.

Section LoaderFacts.
Context (FIGLET_FONT_NAMES FEATURED_FONTS : list (list N))
        (FontData : Type)
        (fontModules : gmap (list N) (completion FontData))
        (parseFont : str → FontData → completion unit)
        (cancelled : nat → bool).

Local Abbreviation loads' := (loads FontData fontModules parseFont).
Local Abbreviation batch' := (loadFontBatch FontData fontModules parseFont).
Local Abbreviation remaining' :=
  (remaining FIGLET_FONT_NAMES FEATURED_FONTS).
Local Abbreviation loop :=
  (batches FIGLET_FONT_NAMES FEATURED_FONTS FontData fontModules parseFont
     cancelled).

Lemma loadFontBatch_ref (batch : list (list N)) (st : LoaderState) :
  loadedFontsRef (batch' batch st)
  = list_to_set (filter (λ f, loads' f) batch) ∪ loadedFontsRef st.
Proof.
  unfold loadFontBatch. revert st.
  induction batch as [|f batch IH]; intros st; simpl.
  - by rewrite (left_id_L ∅ (∪)).
  - rewrite IH. unfold loadFont.
    destruct (loads _ _ _ f) eqn:Hf; simpl.
    + rewrite filter_cons_True by (by rewrite Hf).
      rewrite list_to_set_cons.
      by rewrite (assoc_L (∪)), (comm_L (∪) _ {[f]}).
    + rewrite filter_cons_False by (rewrite Hf; intros []). done.
Qed.

Lemma loadFontBatch_warnings (batch : list (list N)) (st : LoaderState) :
  warnings (batch' batch st)
  = (length (filter (λ f, ¬ loads' f) batch) + warnings st)%nat.
Proof.
  unfold loadFontBatch. revert st.
  induction batch as [|f batch IH]; intros st; simpl; [done|].
  rewrite IH. unfold loadFont.
  destruct (loads _ _ _ f) eqn:Hf; simpl.
  - rewrite filter_cons_False by (rewrite Hf; intros H; by apply H). done.
  - rewrite filter_cons_True by (rewrite Hf; intros []). simpl. lia.
Qed.

Lemma loadFontBatch_published (batch : list (list N)) (st : LoaderState) :
  published (batch' batch st) = published st
  ∧ progress (batch' batch st) = progress st
  ∧ isLoading (batch' batch st) = isLoading st.
Proof.
  unfold loadFontBatch. revert st.
  induction batch as [|f batch IH]; intros st; simpl; [done|].
  destruct (IH (loadFont FontData fontModules parseFont st f))
    as (-> & -> & ->).
  unfold loadFont. by destruct (loads _ _ _ f).
Qed.

(** The loop, when it is never cancelled: enough fuel gives a final
    state. *)
Lemma batches_run (fuel i awaits : nat) (st : LoaderState) :
  (∀ k, cancelled k = false) →
  (length remaining' - i < fuel)%nat →
  head (published st) = Some (loadedFontsRef st) →
  ∃ st', loop fuel i awaits st = Some st'
    ∧ isLoading st' = false
    ∧ length (published st')
      = (ceil_div (length remaining' - i) BATCH_SIZE
         + length (published st))%nat
    ∧ loadedFontsRef st'
      = list_to_set (filter (λ f, loads' f) (drop i remaining'))
        ∪ loadedFontsRef st
    ∧ warnings st'
      = (length (filter (λ f, ¬ loads' f) (drop i remaining'))
         + warnings st)%nat
    ∧ head (published st') = Some (loadedFontsRef st').
Proof.
  intros Hc. revert i awaits st.
  induction fuel as [|fuel IH]; intros i awaits st Hfuel Hhead; [lia|].
  cbn [batches]. case_bool_decide as Hi.
  - rewrite !Hc.
    set (batch := take BATCH_SIZE (drop i remaining')).
    set (st1 := batch' batch st).
    destruct (loadFontBatch_published batch st) as (Hp & _ & _).
    edestruct (IH (i + BATCH_SIZE)%nat (S awaits)
                 (publish (length FEATURED_FONTS + i + length batch) st1))
      as (st' & Hrun & Hload & Hpub & Href & Hwarn & Hhd).
    { unfold BATCH_SIZE. lia. }
    { done. }
    exists st'. split; [exact Hrun|]. split; [exact Hload|].
    assert (drop i remaining'
            = batch ++ drop (i + BATCH_SIZE) remaining') as Hsplit.
    { subst batch. by rewrite <- drop_drop, take_drop. }
    split; [|split; [|split]].
    + rewrite Hpub. cbn [publish published]. fold st1. subst st1.
      rewrite Hp.
      rewrite (ceil_div_step (length remaining' - i)) by lia.
      replace (length remaining' - i - BATCH_SIZE)%nat
        with (length remaining' - (i + BATCH_SIZE))%nat by lia.
      cbn [length]. lia.
    + rewrite Href. cbn [publish loadedFontsRef]. subst st1.
      rewrite loadFontBatch_ref, Hsplit, filter_app, list_to_set_app_L.
      rewrite (assoc_L (∪)). f_equal. apply (comm_L (∪)).
    + rewrite Hwarn. cbn [publish warnings]. subst st1.
      rewrite loadFontBatch_warnings, Hsplit, filter_app, length_app. lia.
    + exact Hhd.
  - eexists. split; [reflexivity|]. cbn.
    rewrite drop_ge by lia. rewrite !filter_nil.
    replace (length remaining' - i)%nat with 0%nat by lia.
    rewrite list_to_set_nil, (left_id_L ∅ (∪)). done.
Qed.
(** Every snapshot is published together with a progress value. *)
Lemma batches_progress (fuel i awaits : nat) (st st' : LoaderState) :
  loop fuel i awaits st = Some st' →
  (length (progress st') + length (published st)
   = length (published st') + length (progress st))%nat.
Proof.
  revert i awaits st. induction fuel as [|fuel IH]; intros i awaits st; [done|].
  cbn [batches]. case_bool_decide; [|intros [= <-]; simpl; lia].
  destruct (cancelled awaits); [intros [= <-]; lia|].
  set (batch := take BATCH_SIZE (drop i remaining')).
  destruct (loadFontBatch_published batch st) as (Hp & Hq & _).
  destruct (cancelled (S awaits)).
  - intros [= <-]. rewrite Hp, Hq. lia.
  - intros Hrun%IH. cbn [publish published progress length] in Hrun.
    rewrite Hp, Hq in Hrun. lia.
Qed.
End LoaderFacts.

Lemma featured_part (FIGLET_FONT_NAMES FEATURED_FONTS : list (list N)) :
  NoDup FIGLET_FONT_NAMES → NoDup FEATURED_FONTS →
  FEATURED_FONTS ⊆ FIGLET_FONT_NAMES →
  filter (λ f : list N, ¬ (f ∉ FEATURED_FONTS)) FIGLET_FONT_NAMES
  ≡ₚ FEATURED_FONTS.
Proof.
  intros Hn Hf Hsub. apply NoDup_Permutation; [by apply NoDup_filter|done|].
  intros f. rewrite list_elem_of_filter. split.
  - intros [Hin _]. by destruct (decide (f ∈ FEATURED_FONTS)).
  - intros Hin. split; [by intros H|by apply Hsub].
Qed.

Lemma remaining_perm (FIGLET_FONT_NAMES FEATURED_FONTS : list (list N)) :
  NoDup FIGLET_FONT_NAMES → NoDup FEATURED_FONTS →
  FEATURED_FONTS ⊆ FIGLET_FONT_NAMES →
  remaining FIGLET_FONT_NAMES FEATURED_FONTS ++ FEATURED_FONTS
  ≡ₚ FIGLET_FONT_NAMES.
Proof.
  intros Hn Hf Hsub. unfold remaining.
  etrans; [|apply (filter_app_complement (λ f : list N, f ∉ FEATURED_FONTS))].
  apply Permutation_app_head. symmetry. by apply featured_part.
Qed.

Lemma remaining_length (FIGLET_FONT_NAMES FEATURED_FONTS : list (list N)) :
  NoDup FIGLET_FONT_NAMES → NoDup FEATURED_FONTS →
  FEATURED_FONTS ⊆ FIGLET_FONT_NAMES →
  length (remaining FIGLET_FONT_NAMES FEATURED_FONTS)
  = (length FIGLET_FONT_NAMES - length FEATURED_FONTS)%nat.
Proof.
  intros Hn Hf Hsub.
  rewrite <- (remaining_perm FIGLET_FONT_NAMES FEATURED_FONTS) at 2 by done.
  rewrite length_app. lia.
Qed.

(** C10.  When the loader is never cancelled, the featured names are among
    the [N] font names and no name is listed twice, [loadAllFonts] ends, the
    number of published snapshots is [ceil((N - featuredCount) / 20) + 1],
    and the final set has [N] elements less one for every font whose load
    fails: exactly [N] when none fails. *)
Theorem loadAllFonts_counts (FIGLET_FONT_NAMES FEATURED_FONTS : list (list N))
    (FontData : Type) (fontModules : gmap (list N) (completion FontData))
    (parseFont : str → FontData → completion unit) (cancelled : nat → bool) :
  NoDup FIGLET_FONT_NAMES →
  NoDup FEATURED_FONTS →
  FEATURED_FONTS ⊆ FIGLET_FONT_NAMES →
  (∀ k, cancelled k = false) →
  let failed :=
    filter (λ f : list N, ¬ loads FontData fontModules parseFont f)
           FIGLET_FONT_NAMES in
  ∃ st,
    loadAllFonts FIGLET_FONT_NAMES FEATURED_FONTS FontData fontModules
      parseFont cancelled initial = Some st
    ∧ isLoading st = false
    ∧ length (published st)
      = (ceil_div (length FIGLET_FONT_NAMES - length FEATURED_FONTS) BATCH_SIZE
         + 1)%nat
    ∧ size (loadedFontsRef st)
      = (length FIGLET_FONT_NAMES - length failed)%nat
    ∧ (length failed ≤ length FIGLET_FONT_NAMES)%nat
    ∧ (failed = [] → size (loadedFontsRef st) = length FIGLET_FONT_NAMES)
    ∧ warnings st = length failed
    ∧ head (published st) = Some (loadedFontsRef st)
    ∧ length (progress st) = length (published st).
Proof.
  intros Hn Hf Hsub Hc failed. unfold loadAllFonts. rewrite Hc.
  set (st1 := loadFontBatch FontData fontModules parseFont FEATURED_FONTS
                initial).
  destruct (loadFontBatch_published FontData fontModules parseFont
              FEATURED_FONTS initial) as (Hp & _ & _).
  destruct (batches_run FIGLET_FONT_NAMES FEATURED_FONTS FontData fontModules
              parseFont cancelled
              (S (length (remaining FIGLET_FONT_NAMES FEATURED_FONTS))) 0 1
              (publish (length FEATURED_FONTS) st1) Hc)
    as (st & Hrun & Hload & Hpub & Href & Hwarn & Hhd); [lia|done|].
  pose proof (remaining_perm _ _ Hn Hf Hsub) as Hperm.
  assert (loadedFontsRef st
          = list_to_set
              (filter (λ f : list N, loads FontData fontModules parseFont f)
                      FIGLET_FONT_NAMES)) as Hset.
  { rewrite Href. cbn [publish loadedFontsRef]. subst st1.
    rewrite loadFontBatch_ref. cbn [initial loadedFontsRef].
    rewrite (right_id_L ∅ (∪)), drop_0, <- list_to_set_app_L, <- filter_app.
    by rewrite Hperm. }
  assert (length
            (filter (λ f : list N, loads FontData fontModules parseFont f)
                    FIGLET_FONT_NAMES) + length failed
          = length FIGLET_FONT_NAMES)%nat as Hsum.
  { rewrite <- length_app. apply Permutation_length.
    apply (filter_app_complement
             (λ f : list N, loads FontData fontModules parseFont f)). }
  assert (size (loadedFontsRef st)
          = (length FIGLET_FONT_NAMES - length failed)%nat) as Hsize.
  { rewrite Hset, size_list_to_set by (by apply NoDup_filter). lia. }
  exists st. split; [exact Hrun|]. split; [exact Hload|]. split.
  { rewrite Hpub, Nat.sub_0_r, (remaining_length _ _ Hn Hf Hsub).
    cbn [publish published length]. subst st1. rewrite Hp. done. }
  split; [exact Hsize|]. split; [lia|]. split.
  { intros Hnone. rewrite Hsize, Hnone. simpl. lia. }
  split; [|split; [exact Hhd|]].
  - rewrite Hwarn. cbn [publish warnings]. subst st1.
    rewrite loadFontBatch_warnings, drop_0. cbn [initial warnings].
    rewrite Nat.add_0_r, <- length_app, <- filter_app. by rewrite Hperm.
  - apply batches_progress in Hrun.
    cbn [publish published progress length] in Hrun. subst st1.
    destruct (loadFontBatch_published FontData fontModules parseFont
                FEATURED_FONTS initial) as (Hp' & Hq' & _).
    rewrite Hp', Hq' in Hrun. cbn [initial published progress length] in Hrun.
    lia.
Qed.

Lemma loadAllFonts_counts_witness :
  ∃ st, demoLoad initial = Some st
    ∧ length (published st) = 4%nat
    ∧ size (loadedFontsRef st) = 44%nat
    ∧ warnings st = 1%nat.
Proof.
  destruct (loadAllFonts_counts demoNames demoFeatured unit demoModules
              (λ _ _, Normal ()) (λ _, false))
    as (st & Hrun & _ & Hpub & Hsize & _ & _ & Hwarn & _ & _).
  - apply (bool_decide_unpack _). vm_compute. exact I.
  - apply (bool_decide_unpack _). vm_compute. exact I.
  - apply (bool_decide_unpack _). vm_compute. exact I.
  - reflexivity.
  - exists st. split; [exact Hrun|].
    split; [rewrite Hpub; vm_compute; reflexivity|].
    split; [rewrite Hsize; vm_compute; reflexivity|].
    rewrite Hwarn. vm_compute. reflexivity.
Defined.

(** ** The catalog order *)

Import Catalog.

Section InsertionSort.
Context {A : Type}.
Implicit Types (c : A → A → Z) (l : list A).

Lemma insert_perm c x l : insert c x l ≡ₚ x :: l.
Proof.
  induction l as [|y l IH]; [done|]. simpl.
  destruct (c x y <? 0)%Z; [done|]. rewrite IH. apply perm_swap.
Qed.

Lemma sort_snoc c l x : sort c (l ++ [x]) = insert c x (sort c l).
Proof. unfold sort. by rewrite foldl_app. Qed.

Lemma sort_perm c l : sort c l ≡ₚ l.
Proof.
  induction l as [|x l IH] using rev_ind; [done|].
  rewrite sort_snoc, insert_perm, IH. apply Permutation_cons_append.
Qed.

Lemma insert_ext c1 c2 x l :
  (∀ y, y ∈ l → c1 x y = c2 x y) → insert c1 x l = insert c2 x l.
Proof.
  induction l as [|y l IH]; intros H; [done|]. simpl.
  rewrite (H y) by apply list_elem_of_here.
  rewrite IH; [done|]. intros z Hz. apply H. by apply list_elem_of_further.
Qed.

(** Only comparisons of a later element with an earlier one are made. *)
Lemma sort_ext c1 c2 l :
  (∀ i j x y, (i < j)%nat → l !! i = Some y → l !! j = Some x →
              c1 x y = c2 x y) →
  sort c1 l = sort c2 l.
Proof.
  induction l as [|x l IH] using rev_ind; intros H; [done|].
  rewrite !sort_snoc, IH.
  - apply insert_ext. intros y Hy.
    rewrite sort_perm in Hy. apply list_elem_of_lookup in Hy as [i Hi].
    apply (H i (length l)).
    + by apply lookup_lt_Some in Hi.
    + by rewrite lookup_app_l by (by apply lookup_lt_Some in Hi).
    + by rewrite list_lookup_middle.
  - intros i j x' y' Hij Hi Hj. apply (H i j); [done|..].
    + rewrite lookup_app_l; [done|].
      apply lookup_lt_Some in Hj. lia.
    + rewrite lookup_app_l; [done|]. by apply lookup_lt_Some in Hj.
Qed.

Lemma insert_sorted c x l :
  (∀ a b, (c a b < 0)%Z → (0 ≤ c b a)%Z) →
  Transitive (λ a b, (0 ≤ c b a)%Z) →
  StronglySorted (λ a b, (0 ≤ c b a)%Z) l →
  StronglySorted (λ a b, (0 ≤ c b a)%Z) (insert c x l).
Proof.
  intros Hasym Htrans. induction l as [|y l IH]; intros Hs; simpl.
  - by repeat constructor.
  - apply StronglySorted_inv in Hs as [Hs Hy].
    destruct (c x y <? 0)%Z eqn:Hxy.
    + apply Z.ltb_lt in Hxy. constructor; [by constructor|].
      constructor; [by apply Hasym|].
      eapply Forall_impl; [exact Hy|]. intros z Hz. cbv beta in *.
      eapply (Htrans x y z); [by apply Hasym|done].
    + apply Z.ltb_ge in Hxy. constructor; [by apply IH|].
      rewrite insert_perm. by constructor.
Qed.

Lemma sort_sorted c l :
  (∀ a b, (c a b < 0)%Z → (0 ≤ c b a)%Z) →
  Transitive (λ a b, (0 ≤ c b a)%Z) →
  StronglySorted (λ a b, (0 ≤ c b a)%Z) (sort c l).
Proof.
  intros Hasym Htrans. induction l as [|x l IH] using rev_ind.
  - constructor.
  - rewrite sort_snoc. by apply insert_sorted.
Qed.

Lemma StronglySorted_lookup (R : relation A) l i j x y :
  StronglySorted R l → (i < j)%nat →
  l !! i = Some x → l !! j = Some y → R x y.
Proof.
  intros Hs. revert i j. induction Hs as [|z l Hs IH Hz]; intros i j Hij Hi Hj.
  - done.
  - destruct j as [|j]; [lia|]. destruct i as [|i].
    + simpl in *. injection Hi as ->.
      eapply Forall_forall in Hz; [exact Hz|].
      by eapply list_elem_of_lookup_2.
    + simpl in *. apply (IH i j); [lia|done..].
Qed.
End InsertionSort.

Lemma StronglySorted_filter {A} (R : relation A) (P : A → Prop)
    `{∀ x, Decision (P x)} (l : list A) :
  StronglySorted R l → StronglySorted R (filter P l).
Proof.
  induction 1 as [|x l Hs IH Hx]; [constructor|].
  rewrite filter_cons. destruct (decide (P x)); [|done].
  constructor; [done|]. apply Forall_forall. intros y [_ Hy]%list_elem_of_filter.
  by eapply Forall_forall in Hx.
Qed.

Lemma StronglySorted_const {A} (f : A → nat) (n : nat) (l : list A) :
  Forall (λ x, f x = n) l → StronglySorted (λ a b, (f a ≤ f b)%nat) l.
Proof.
  induction 1 as [|x l Hx Hl IH]; constructor; [done|].
  eapply Forall_impl; [exact Hl|]. intros y Hy. simpl in *. lia.
Qed.

Section CatalogFacts.
Context (FEATURED_FONTS CFONTS_NAMES : list (list N))
        (toLowerCase : str → str) (localeCompare : str → str → Z).

Local Abbreviation cmpAll := (compareEntries localeCompare all).
Local Abbreviation cmpG := (compareGrouped localeCompare).
Local Abbreviation input search loadedFonts :=
  (searched toLowerCase search
     (collected FEATURED_FONTS CFONTS_NAMES all loadedFonts)).

(** The entries are pushed library by library. *)
Lemma collected_by_library (loadedFonts : list (list N)) :
  StronglySorted
    (λ a b, (libraryRank (source a) ≤ libraryRank (source b))%nat)
    (collected FEATURED_FONTS CFONTS_NAMES all loadedFonts).
Proof.
  unfold collected.
  rewrite !bool_decide_eq_true_2 by (by left).
  apply StronglySorted_app_2; [| |apply StronglySorted_app_2].
  - intros a b (n & -> & _)%list_elem_of_fmap
      [(m & -> & _)%list_elem_of_fmap|(s & -> & _)%list_elem_of_fmap]
      %elem_of_app; simpl; lia.
  - apply (StronglySorted_const (λ e, libraryRank (source e)) 0).
    by apply Forall_fmap, Forall_true.
  - intros a b (n & -> & _)%list_elem_of_fmap (s & -> & _)%list_elem_of_fmap.
    simpl. lia.
  - apply (StronglySorted_const (λ e, libraryRank (source e)) 1).
    by apply Forall_fmap, Forall_true.
  - apply (StronglySorted_const (λ e, libraryRank (source e)) 2).
    by apply Forall_fmap, Forall_true.
Qed.

Lemma input_by_library (search : str) (loadedFonts : list (list N)) :
  StronglySorted
    (λ a b, (libraryRank (source a) ≤ libraryRank (source b))%nat)
    (input search loadedFonts).
Proof.
  unfold searched. destruct (trim search).
  - apply collected_by_library.
  - apply StronglySorted_filter, collected_by_library.
Qed.

(** On a later element [x] and an earlier element [y] of the pushed
    entries, the comparison of the source and the grouped comparison
    agree. *)
Lemma compare_agree (x y : FontEntry) :
  (libraryRank (source y) ≤ libraryRank (source x))%nat →
  cmpAll x y = cmpG x y.
Proof.
  unfold compareEntries, compareGrouped.
  destruct (featured x), (featured y), (source x), (source y);
    simpl; intros Hr; try lia; reflexivity.
Qed.

Lemma displayed_grouped (search : str) (loadedFonts : list (list N)) :
  displayedFonts FEATURED_FONTS CFONTS_NAMES toLowerCase localeCompare all
    search loadedFonts
  = sort cmpG (input search loadedFonts).
Proof.
  unfold displayedFonts. apply sort_ext. intros i j x y Hij Hi Hj.
  apply compare_agree.
  exact (StronglySorted_lookup _ _ i j y x
           (input_by_library search loadedFonts) Hij Hi Hj).
Qed.

Hypothesis localeCompare_antisym :
  ∀ a b, Z.sgn (localeCompare a b) = (- Z.sgn (localeCompare b a))%Z.
Hypothesis localeCompare_trans :
  ∀ a b c, (localeCompare a b ≤ 0)%Z → (localeCompare b c ≤ 0)%Z →
           (localeCompare a c ≤ 0)%Z.

Lemma localeCompare_flip (a b : str) :
  (0 ≤ localeCompare b a)%Z ↔ (localeCompare a b ≤ 0)%Z.
Proof using localeCompare_antisym.
  pose proof (localeCompare_antisym a b) as H.
  destruct (Z.lt_total (localeCompare a b) 0) as [Hlt|[Heq|Hgt]].
  - rewrite (proj2 (Z.sgn_neg_iff _) Hlt) in H.
    assert (0 < localeCompare b a)%Z by (apply Z.sgn_pos_iff; lia). lia.
  - rewrite Heq in H. simpl in H.
    assert (localeCompare b a = 0)%Z by (apply Z.sgn_null_iff; lia). lia.
  - rewrite (proj2 (Z.sgn_pos_iff _) Hgt) in H.
    assert (localeCompare b a < 0)%Z by (apply Z.sgn_neg_iff; lia). lia.
Qed.

Lemma compareGrouped_nonneg (a b : FontEntry) :
  (0 ≤ cmpG b a)%Z
  ↔ (groupRank a < groupRank b)%nat
    ∨ (groupRank a = groupRank b
       ∧ (localeCompare (displayName a) (displayName b) ≤ 0)%Z).
Proof using localeCompare_antisym.
  rewrite <- localeCompare_flip.
  unfold compareGrouped, groupRank.
  destruct (featured a), (featured b), (source a), (source b);
    simpl; split; intros H; try lia;
    try (right; split; [reflexivity|exact H]);
    try (left; lia);
    try (destruct H as [H|[H H']]; (lia || exact H')).
Qed.

Lemma compareGrouped_neg (a b : FontEntry) :
  (cmpG a b < 0)%Z → (0 ≤ cmpG b a)%Z.
Proof using localeCompare_antisym.
  intros H. apply compareGrouped_nonneg.
  destruct (decide (0 ≤ cmpG a b)%Z) as [Hge|_]; [lia|].
  assert (¬ ((groupRank b < groupRank a)%nat
             ∨ groupRank b = groupRank a
               ∧ (localeCompare (displayName b) (displayName a) ≤ 0)%Z))
    as Hn by (rewrite <- compareGrouped_nonneg; lia).
  destruct (lt_eq_lt_dec (groupRank a) (groupRank b)) as [[Hlt|Heq]|Hgt].
  - by left.
  - right. split; [done|]. apply localeCompare_flip.
    destruct (decide (localeCompare (displayName b) (displayName a) ≤ 0)%Z);
      [|lia].
    exfalso. apply Hn. right. by split.
  - exfalso. apply Hn. by left.
Qed.

Lemma compareGrouped_trans :
  Transitive (λ a b : FontEntry, (0 ≤ cmpG b a)%Z).
Proof using localeCompare_antisym localeCompare_trans.
  intros a b c. rewrite !compareGrouped_nonneg.
  intros [Hab|[Hab Hab']] [Hbc|[Hbc Hbc']]; try (left; lia).
  right. split; [lia|]. by eapply localeCompare_trans.
Qed.

Lemma displayed_sorted (search : str) (loadedFonts : list (list N)) :
  StronglySorted (λ a b, (0 ≤ cmpG b a)%Z)
    (displayedFonts FEATURED_FONTS CFONTS_NAMES toLowerCase localeCompare
       all search loadedFonts).
Proof using localeCompare_antisym localeCompare_trans.
  rewrite displayed_grouped.
  apply sort_sorted; [apply compareGrouped_neg|apply compareGrouped_trans].
Qed.
End CatalogFacts.

Lemma groupRank_inj (a b : FontEntry) :
  groupRank a = groupRank b → featured a = featured b ∧ source a = source b.
Proof.
  unfold groupRank.
  destruct (featured a), (featured b), (source a), (source b);
    simpl; intros H; (lia || done).
Qed.

Lemma unitCompare_antisym (a b : str) :
  Z.sgn (unitCompare a b) = (- Z.sgn (unitCompare b a))%Z.
Proof.
  revert b. induction a as [|x a IH]; intros [|y b]; simpl; try done.
  destruct (N.ltb_spec x y), (N.ltb_spec y x); simpl; try done; lia.
Qed.

Lemma unitCompare_trans (a b c : str) :
  (unitCompare a b ≤ 0)%Z → (unitCompare b c ≤ 0)%Z → (unitCompare a c ≤ 0)%Z.
Proof.
  revert b c. induction a as [|x a IH]; intros [|y b] [|z c]; simpl; try lia.
  destruct (N.ltb_spec x y), (N.ltb_spec y x), (N.ltb_spec y z),
    (N.ltb_spec z y), (N.ltb_spec x z), (N.ltb_spec z x);
    try lia; apply IH.
Qed.

(** The order of the tab [all] under the insertion sort [sort], which hands
    the comparison function the later element first, with [localeCompare]
    a consistent comparison: the displayed list holds the collected
    entries that pass the search, and for any two of its entries [x]
    before [y]: [x] is featured whenever [y] is; among entries with the
    same featured flag, [x] is a figlet entry whenever [y] is; and when [x]
    and [y] have the same flag and the same library, every entry between
    them has that flag and library too, and the display name of [x] is not
    after the one of [y].  Another sort can give another order, the
    comparison function not being consistent on this tab. *)
Lemma displayed_order_all (FEATURED_FONTS CFONTS_NAMES : list (list N))
    (toLowerCase : str → str) (localeCompare : str → str → Z)
    (search : str) (loadedFonts : list (list N)) :
  (∀ a b, Z.sgn (localeCompare a b) = (- Z.sgn (localeCompare b a))%Z) →
  (∀ a b c, (localeCompare a b ≤ 0)%Z → (localeCompare b c ≤ 0)%Z →
            (localeCompare a c ≤ 0)%Z) →
  let out := displayedFonts FEATURED_FONTS CFONTS_NAMES toLowerCase
               localeCompare all search loadedFonts in
  out ≡ₚ searched toLowerCase search
            (collected FEATURED_FONTS CFONTS_NAMES all loadedFonts)
  ∧ ∀ i j x y, (i < j)%nat → out !! i = Some x → out !! j = Some y →
      (featured y = true → featured x = true)
      ∧ (featured x = featured y → source y = figlet → source x = figlet)
      ∧ (featured x = featured y → source x = source y →
           (localeCompare (displayName x) (displayName y) ≤ 0)%Z
           ∧ ∀ k z, (i < k < j)%nat → out !! k = Some z →
               featured z = featured x ∧ source z = source x).
Proof.
  intros Hanti Htrans out. split; [apply sort_perm|].
  pose proof (displayed_sorted FEATURED_FONTS CFONTS_NAMES toLowerCase
                localeCompare Hanti Htrans search loadedFonts) as Hs.
  fold out in Hs.
  assert (∀ i j x y, (i < j)%nat → out !! i = Some x → out !! j = Some y →
            (groupRank x < groupRank y)%nat
            ∨ (groupRank x = groupRank y
               ∧ (localeCompare (displayName x) (displayName y) ≤ 0)%Z))
    as Hord.
  { intros i j x y Hij Hi Hj.
    apply (compareGrouped_nonneg localeCompare Hanti).
    exact (StronglySorted_lookup _ _ i j x y Hs Hij Hi Hj). }
  intros i j x y Hij Hi Hj. pose proof (Hord i j x y Hij Hi Hj) as Hxy.
  split; [|split].
  - intros Hy. unfold groupRank in Hxy. rewrite Hy in Hxy.
    destruct (featured x); [done|].
    destruct (source x), (source y); simpl in Hxy; lia.
  - intros Hf Hy. unfold groupRank in Hxy. rewrite Hf, Hy in Hxy.
    destruct (source x); [done|simpl in Hxy; lia..].
  - intros Hf Hsrc.
    assert (groupRank x = groupRank y) as Hg
      by (unfold groupRank; by rewrite Hf, Hsrc).
    split; [lia|].
    intros k z [Hik Hkj] Hk.
    pose proof (Hord i k x z Hik Hi Hk) as Hxz.
    pose proof (Hord k j z y Hkj Hk Hj) as Hzy.
    destruct (groupRank_inj z x) as [? ?]; [lia|done].
Qed.

Lemma displayed_order_all_witness :
  let out := demoDisplayed [] in
  out ≡ₚ searched asciiLower []
            (collected [lit "Standard"] [lit "tiny"; lit "block"] all
               [lit "Zeta"; lit "Standard"; lit "Alpha"])
  ∧ ∀ i j x y, (i < j)%nat → out !! i = Some x → out !! j = Some y →
      (featured y = true → featured x = true)
      ∧ (featured x = featured y → source y = figlet → source x = figlet)
      ∧ (featured x = featured y → source x = source y →
           (unitCompare (displayName x) (displayName y) ≤ 0)%Z
           ∧ ∀ k z, (i < k < j)%nat → out !! k = Some z →
               featured z = featured x ∧ source z = source x).
Proof.
  exact (displayed_order_all [lit "Standard"] [lit "tiny"; lit "block"]
           asciiLower unitCompare []
           [lit "Zeta"; lit "Standard"; lit "Alpha"]
           unitCompare_antisym unitCompare_trans).
Defined.

Example demoDisplayed_names :
  displayName <$> demoDisplayed []
  = [lit "Standard"; lit "Alpha"; lit "Zeta"; lit "Block"; lit "Tiny";
     lit "Bitmap @"; lit "Bitmap Binary"; lit "Bitmap Block";
     lit "Bitmap Braille"; lit "Bitmap Cross"; lit "Bitmap Dot";
     lit "Bitmap Hash"; lit "Bitmap Shade"; lit "Bitmap Slash";
     lit "Bitmap Star"].
Proof. vm_compute. reflexivity. Qed.

Example demoDisplayed_search :
  displayName <$> demoDisplayed (lit "ta")
  = [lit "Standard"; lit "Zeta"; lit "Bitmap Star"].
Proof. vm_compute. reflexivity. Qed.

(** ** Two sorts and the comparison function of the tab [all] *)

Section Engines.
Context {A : Type} (c : A → A → Z).
Hypothesis c_antisym : ∀ a b, Z.sgn (c a b) = (- Z.sgn (c b a))%Z.
Hypothesis c_trans :
  ∀ a b d, (c a b ≤ 0)%Z → (c b d ≤ 0)%Z → (c a d ≤ 0)%Z.













End Engines.


(** ** Sanity checks of the string functions *)

Example stripColorTags_tags :
  stripColorTags (lit "<c1>ab</c1>x<c>y</c22><c2x><<c3>") = lit "abx<c>y<c2x><".
Proof. vm_compute. reflexivity. Qed.

Example trimTrailing_inner :
  trimTrailing (lit "  a  b   ") = lit "  a  b".
Proof. vm_compute. reflexivity. Qed.

Example rows_of_block :
  rows_of (lit "ab" ++ [NL] ++ [NL] ++ lit "c") = [lit "ab"; []; lit "c"].
Proof. vm_compute. reflexivity. Qed.

Example includes_middle :
  includes (lit "bitmap block") (lit "map b") = true
  ∧ includes (lit "bitmap") (lit "maps") = false
  ∧ includes (lit "bitmap") [] = true.
Proof. vm_compute. done. Qed.

(** * Further properties of the code *)

(** ** [stripColorTags] *)

Lemma tagAt_not_lt (c : N) (t : str) : c ≠ LT → tagAt (c :: t) = None.
Proof. intros Hc. simpl. by rewrite (proj2 (N.eqb_neq _ _) Hc). Qed.

Lemma stripFrom_plain (pre s : str) :
  LT ∉ pre → stripFrom 0 (pre ++ s) = pre ++ stripFrom 0 s.
Proof.
  induction pre as [|c pre IH]; intros Hpre; [done|].
  apply not_elem_of_cons in Hpre as [Hc Hpre].
  change ((c :: pre) ++ s) with (c :: (pre ++ s)). cbn [stripFrom].
  rewrite tagAt_not_lt by done. by rewrite IH.
Qed.

Lemma stripFrom_skip (p s : str) :
  stripFrom (length p) (p ++ s) = stripFrom 0 s.
Proof. induction p as [|c p IH]; [done|]. simpl. exact IH. Qed.

Lemma digitRun_digits (ds s : str) :
  forallb isDigit ds = true → digitRun (ds ++ GT :: s) = length ds.
Proof.
  induction ds as [|d ds IH]; [done|]. simpl.
  intros [Hd Hds]%andb_true_iff. by rewrite Hd, IH.
Qed.

Lemma tagBody_digits (ds s : str) :
  ds ≠ [] → forallb isDigit ds = true →
  tagBody (LOWER_C :: ds ++ GT :: s) = Some (length ds + 2)%nat.
Proof.
  intros Hne Hds. cbn [tagBody]. rewrite N.eqb_refl, digitRun_digits by done.
  destruct ds as [|d ds]; [done|]. cbn [length].
  change (S (length ds)) with (length (d :: ds)) at 1.
  rewrite drop_app_length. by rewrite N.eqb_refl.
Qed.

(** X1.  A string without [<] is left as it is by [stripColorTags]. *)
Theorem stripColorTags_plain (s : str) :
  LT ∉ s → stripColorTags s = s.
Proof.
  intros Hs. unfold stripColorTags.
  rewrite <- (app_nil_r s) at 1. rewrite stripFrom_plain by done.
  by rewrite app_nil_r.
Qed.

Lemma stripColorTags_plain_witness :
  stripColorTags (lit "/  \ c1>") = lit "/  \ c1>".
Proof.
  apply (stripColorTags_plain (lit "/  \ c1>")).
  apply (bool_decide_unpack _). vm_compute. exact I.
Defined.

(** X2.  An opening tag [<c] digits [>] or a closing tag [</c] digits [>]
    that follows text without [<] is removed whole: the text before it is
    kept and the stripping goes on behind it. *)
Theorem stripColorTags_tag (pre ds s : str) :
  LT ∉ pre → ds ≠ [] → forallb isDigit ds = true →
  stripColorTags (pre ++ LT :: LOWER_C :: ds ++ GT :: s)
  = pre ++ stripColorTags s
  ∧ stripColorTags (pre ++ LT :: SLASH :: LOWER_C :: ds ++ GT :: s)
    = pre ++ stripColorTags s.
Proof.
  intros Hpre Hne Hds. unfold stripColorTags.
  rewrite !stripFrom_plain by done.
  pose proof (tagBody_digits ds s Hne Hds) as Hbody.
  assert (∀ k p, k = length p → stripFrom k (p ++ s) = stripFrom 0 s) as Hskip
    by (intros k p ->; apply stripFrom_skip).
  split; apply (f_equal (app pre)).
  - cbn [stripFrom tagAt]. rewrite N.eqb_refl.
    change (LOWER_C =? SLASH) with false. cbv iota. rewrite Hbody.
    cbn [fmap option_fmap option_map].
    rewrite <- (Hskip (S (length ds + 2) - 1)%nat (LOWER_C :: ds ++ [GT])).
    + simpl. by rewrite <- app_assoc.
    + simpl. rewrite length_app. simpl. lia.
  - cbn [stripFrom tagAt]. rewrite !N.eqb_refl. rewrite Hbody.
    cbn [fmap option_fmap option_map].
    rewrite <- (Hskip (length ds + 2 + 2 - 1)%nat
                  (SLASH :: LOWER_C :: ds ++ [GT])).
    + simpl. by rewrite <- app_assoc.
    + simpl. rewrite length_app. simpl. lia.
Qed.

Lemma stripColorTags_tag_witness :
  stripColorTags (lit "ab" ++ LT :: LOWER_C :: lit "12" ++ GT :: lit "cd")
  = lit "ab" ++ stripColorTags (lit "cd")
  ∧ stripColorTags
      (lit "ab" ++ LT :: SLASH :: LOWER_C :: lit "12" ++ GT :: lit "cd")
    = lit "ab" ++ stripColorTags (lit "cd").
Proof.
  apply (stripColorTags_tag (lit "ab") (lit "12") (lit "cd")).
  - apply (bool_decide_unpack _). vm_compute. exact I.
  - discriminate.
  - reflexivity.
Defined.

Lemma stripFrom_sublist (skip : nat) (s : str) :
  stripFrom skip s `sublist_of` s.
Proof.
  revert skip. induction s as [|c s IH]; intros skip; [done|].
  cbn [stripFrom]. destruct skip as [|k].
  - destruct (tagAt (c :: s)).
    + by apply sublist_cons.
    + by apply sublist_skip.
  - by apply sublist_cons.
Qed.

(** X3.  [stripColorTags] only deletes: its result is a subsequence of the
    argument, so it is never longer and holds no code unit the argument
    does not hold. *)
Theorem stripColorTags_only_deletes (s : str) :
  stripColorTags s `sublist_of` s
  ∧ (length (stripColorTags s) ≤ length s)%nat
  ∧ ∀ c, c ∈ stripColorTags s → c ∈ s.
Proof.
  pose proof (stripFrom_sublist 0 s) as H. split; [exact H|]. split.
  - by apply sublist_length.
  - intros c. by apply sublist_subseteq.
Qed.

(** ** Trimming and splitting into rows *)

Lemma trimTrailing_app_blank (s ws : str) :
  forallb isWhiteSpace ws = true → trimTrailing (s ++ ws) = trimTrailing s.
Proof.
  intros Hws. induction s as [|c s IH]; [by apply trimTrailing_blank|].
  change ((c :: s) ++ ws) with (c :: (s ++ ws)). cbn [trimTrailing].
  rewrite IH. cbn [forallb]. by rewrite forallb_app, Hws, andb_true_r.
Qed.

Lemma trimTrailing_blank_iff (s : str) :
  forallb isWhiteSpace (trimTrailing s) = forallb isWhiteSpace s.
Proof.
  destruct (trimTrailing_split s) as (ws & Heq & Hws).
  rewrite Heq at 2. by rewrite forallb_app, Hws, andb_true_r.
Qed.

(** X4.  Trimming a row twice is trimming it once, and white space added
    at the end of a row does not change the trimmed row. *)
Theorem trimTrailing_idempotent (s ws : str) :
  forallb isWhiteSpace ws = true →
  trimTrailing (trimTrailing s) = trimTrailing s
  ∧ trimTrailing (s ++ ws) = trimTrailing s.
Proof.
  intros Hws. split; [|by apply trimTrailing_app_blank].
  destruct (trimTrailing_split s) as (ws' & Heq & Hws').
  rewrite Heq at 2. by rewrite trimTrailing_app_blank.
Qed.

Lemma trimTrailing_idempotent_witness :
  trimTrailing (trimTrailing (lit " a b  ")) = trimTrailing (lit " a b  ")
  ∧ trimTrailing (lit " a b  " ++ lit "   ") = trimTrailing (lit " a b  ").
Proof.
  apply (trimTrailing_idempotent (lit " a b  ") (lit "   ")). reflexivity.
Defined.

Lemma rows_of_plain (r : str) : NL ∉ r → rows_of r = [r].
Proof.
  induction r as [|c r IH]; [done|].
  intros [Hc Hr]%not_elem_of_cons. cbn [rows_of].
  assert ((c =? NL) = false) as -> by (apply N.eqb_neq; congruence).
  by rewrite IH.
Qed.

Lemma rows_of_app_break (r s : str) :
  NL ∉ r → rows_of (r ++ NL :: s) = r :: rows_of s.
Proof.
  induction r as [|c r IH]; [done|].
  intros [Hc Hr]%not_elem_of_cons.
  change ((c :: r) ++ NL :: s) with (c :: (r ++ NL :: s)). cbn [rows_of].
  assert ((c =? NL) = false) as -> by (apply N.eqb_neq; congruence).
  by rewrite IH.
Qed.

Lemma rows_of_join (rows : list str) :
  rows ≠ [] → Forall (λ r, NL ∉ r) rows → rows_of (join [NL] rows) = rows.
Proof.
  intros Hne Hrows. induction Hrows as [|r rows Hr Hrows IH]; [done|].
  destruct rows as [|r' rows].
  - simpl. by apply rows_of_plain.
  - change (join [NL] (r :: r' :: rows))
      with (r ++ NL :: join [NL] (r' :: rows)).
    rewrite rows_of_app_break by done. by rewrite IH.
Qed.

Lemma trimTrailing_no_break (r : str) : NL ∉ r → NL ∉ trimTrailing r.
Proof.
  intros Hr Hin. apply Hr.
  destruct (trimTrailing_split r) as (ws & Heq & _). rewrite Heq.
  apply elem_of_app. by left.
Qed.

(** ** More on the glyph-table renderer *)

Lemma concat_no_break (rows : list str) :
  Forall (λ r, NL ∉ r) rows → NL ∉ concat rows.
Proof.
  induction 1 as [|r rows Hr _ IH]; simpl; [apply not_elem_of_nil|].
  rewrite elem_of_app. tauto.
Qed.

Lemma stripColorTags_no_break (s : str) : NL ∉ s → NL ∉ stripColorTags s.
Proof.
  intros Hs Hin. apply Hs.
  by apply (sublist_subseteq _ _ (stripFrom_sublist 0 s)).
Qed.

Lemma at_or_no_break (a : list str) (i : nat) (d : str) :
  (∀ row, row ∈ a → NL ∉ row) → NL ∉ d → NL ∉ at_or a i d.
Proof.
  intros Ha Hd. unfold at_or.
  destruct (a !! i) as [[|c r]|] eqn:Hi; [done| |done].
  apply Ha. by eapply list_elem_of_lookup_2.
Qed.

Section NoBreak.
Context (font : CfontsFont).
Hypothesis glyphs_no_break :
  ∀ k glyph row, chars font !! k = Some glyph → row ∈ glyph → NL ∉ row.
Hypothesis template_no_break :
  ∀ ls row, letterspace font = Some ls → row ∈ ls → NL ∉ row.

Lemma spacing_no_break (line : nat) : NL ∉ spacing font line.
Proof using template_no_break.
  unfold spacing. destruct (letterspace font) as [ls|] eqn:Hls.
  - apply stripColorTags_no_break, at_or_no_break; [by eauto|].
    apply (bool_decide_unpack _). vm_compute. exact I.
  - apply (bool_decide_unpack _). vm_compute. exact I.
Qed.

Lemma letterGap_no_break (line : nat) : NL ∉ letterGap font line.
Proof using template_no_break.
  unfold letterGap. destruct (letterspace font) as [ls|] eqn:Hls.
  - apply stripColorTags_no_break, at_or_no_break; [by eauto|].
    apply not_elem_of_nil.
  - apply not_elem_of_nil.
Qed.

Lemma cell_no_break (n line idx : nat) (ch : N) :
  NL ∉ cell font n line idx ch.
Proof using glyphs_no_break template_no_break.
  unfold cell. destruct (chars font !! [ch]) as [glyph|] eqn:Hg.
  - rewrite elem_of_app. intros [Hin|Hin].
    + revert Hin. apply stripColorTags_no_break, at_or_no_break; [by eauto|].
      apply not_elem_of_nil.
    + destruct (bool_decide _); [by apply letterGap_no_break in Hin|].
      by apply elem_of_nil in Hin.
  - apply spacing_no_break.
Qed.

Lemma rowOf_no_break (input : str) (line : nat) :
  NL ∉ rowOf font input line.
Proof using glyphs_no_break template_no_break.
  unfold rowOf. apply concat_no_break, Forall_forall.
  intros r (i & ch & -> & _)%elem_of_lookup_imap. apply cell_no_break.
Qed.
End NoBreak.

(** X5.  For a font whose glyph rows and template rows hold no line break,
    a result of [renderCfonts] that is not null splits at its line breaks
    into exactly [lines] rows; they are the trimmed accumulators, and none
    of them ends in white space. *)
Theorem renderCfonts_rows (data : gmap (list N) CfontsFont)
    (upper : str → str) (text fontName : str) (font : CfontsFont) (s : str) :
  data !! fontName = Some font →
  (∀ k glyph row, chars font !! k = Some glyph → row ∈ glyph → NL ∉ row) →
  (∀ ls row, letterspace font = Some ls → row ∈ ls → NL ∉ row) →
  renderCfonts data upper text fontName = Some s →
  rows_of s = trimTrailing <$> compose font (upper text)
  ∧ length (rows_of s) = lines font
  ∧ ∀ row c, row ∈ rows_of s → last row = Some c → isWhiteSpace c = false.
Proof.
  intros Hfont Hg Ht. rewrite renderCfonts_unfold, Hfont. unfold joined.
  intros Hs.
  assert (join [NL] (trimTrailing <$> compose font (upper text)) = s
          ∧ s ≠ []) as [Hj Hne].
  { destruct (join [NL] (trimTrailing <$> compose font (upper text)));
      [done|]. simpl in Hs. injection Hs as <-. done. }
  assert (rows_of s = trimTrailing <$> compose font (upper text)) as Hrows.
  { rewrite <- Hj. apply rows_of_join.
    - intros Hnil. rewrite Hnil in Hj. simpl in Hj. congruence.
    - apply Forall_fmap, Forall_forall. intros r Hr. simpl.
      apply trimTrailing_no_break. rewrite compose_rows in Hr.
      apply list_elem_of_fmap in Hr as (line & -> & _).
      by apply rowOf_no_break. }
  split; [exact Hrows|]. split.
  - by rewrite Hrows, length_fmap, compose_length.
  - intros row c Hrow. rewrite Hrows in Hrow.
    apply list_elem_of_fmap in Hrow as (r & -> & _). apply trimTrailing_last.
Qed.

Lemma renderCfonts_rows_witness :
  rows_of (lit "/\    /\" ++ [NL] ++ lit "/  \    /  \")
  = trimTrailing <$> compose scenarioFont (asciiUpper (lit "a a "))
  ∧ length (rows_of (lit "/\    /\" ++ [NL] ++ lit "/  \    /  \"))
    = lines scenarioFont.
Proof.
  destruct (renderCfonts_rows scenarioData asciiUpper (lit "a a ")
              (lit "demo") scenarioFont
              (lit "/\    /\" ++ [NL] ++ lit "/  \    /  \"))
    as (H1 & H2 & _).
  - vm_compute. reflexivity.
  - intros k glyph row Hk. unfold scenarioFont, chars in Hk.
    apply lookup_singleton_Some in Hk as [_ <-].
    intros Hrow. apply (bool_decide_unpack _). revert Hrow.
    rewrite !elem_of_cons, elem_of_nil.
    intros [->|[->|[]]]; vm_compute; exact I.
  - intros ls row [= <-]. rewrite !elem_of_cons, elem_of_nil.
    intros [->|[->|[]]]; apply (bool_decide_unpack _); vm_compute; exact I.
  - vm_compute. reflexivity.
  - split; [exact H1|exact H2].
Defined.

Lemma concat_const_replicate (sp : str) (l : str) :
  concat ((λ _, sp) <$> l) = concat (replicate (length l) sp).
Proof.
  induction l as [|c l IH]; [done|].
  rewrite fmap_cons. cbn [concat length replicate]. by rewrite IH.
Qed.

(** X6.  For a text whose upper-cased characters all lack glyph data (a
    text of spaces, say), every accumulator is the spacing fragment repeated
    once per character: consecutive unmapped characters get no letter
    spacing between them. *)
Theorem unmapped_text_is_spacing (data : gmap (list N) CfontsFont)
    (upper : str → str) (text fontName : str) (font : CfontsFont) :
  data !! fontName = Some font →
  (∀ ch, ch ∈ upper text → chars font !! [ch] = None) →
  compose font (upper text)
  = (λ line, concat (replicate (length (upper text)) (spacing font line)))
      <$> seq 0 (lines font)
  ∧ renderCfonts data upper text fontName
    = or_null (join [NL] (trimTrailing <$>
        ((λ line, concat (replicate (length (upper text)) (spacing font line)))
           <$> seq 0 (lines font)))).
Proof.
  intros Hfont Hun.
  assert (compose font (upper text)
          = (λ line, concat (replicate (length (upper text))
                               (spacing font line))) <$> seq 0 (lines font))
    as Hc.
  { rewrite compose_rows. apply list_fmap_ext. intros _ line _.
    unfold rowOf. rewrite <- concat_const_replicate, <- imap_const.
    f_equal. apply imap_ext. intros i ch Hi. unfold cell, const.
    rewrite Hun; [done|]. by eapply list_elem_of_lookup_2. }
  split; [exact Hc|].
  rewrite renderCfonts_unfold, Hfont. unfold joined. by rewrite Hc.
Qed.

Lemma unmapped_text_is_spacing_witness :
  compose scenarioFont (asciiUpper (lit " ? ")) = [lit "      "; lit "      "].
Proof.
  destruct (unmapped_text_is_spacing scenarioData asciiUpper (lit " ? ")
              (lit "demo") scenarioFont) as [Hc _].
  - vm_compute. reflexivity.
  - intros ch Hch. change (asciiUpper (lit " ? ")) with [32; 63; 32] in Hch.
    rewrite !elem_of_cons, elem_of_nil in Hch.
    destruct Hch as [->|[->|[->|[]]]]; vm_compute; reflexivity.
  - rewrite Hc. vm_compute. reflexivity.
Defined.

Lemma rowOf_snoc_unmapped (font : CfontsFont) (input : str) (u : N)
    (line : nat) :
  chars font !! [u] = None →
  ∃ gap, (gap = [] ∨ gap = letterGap font line)
    ∧ rowOf font (input ++ [u]) line
      = rowOf font input line ++ gap ++ spacing font line.
Proof.
  intros Hu. unfold rowOf. rewrite length_app, imap_app, concat_app.
  cbn [length imap concat]. unfold cell at 2. cbn [compose]. rewrite Hu.
  rewrite app_nil_r.
  induction input as [|z init _] using rev_ind.
  - exists []. split; [by left|]. done.
  - exists (match chars font !! [z] with
            | Some _ => letterGap font line
            | None => []
            end).
    split; [destruct (chars font !! [z]); auto|].
    rewrite !length_app, !imap_app, !concat_app. cbn [length imap concat].
    rewrite !app_nil_r, <- !(assoc (++)).
    assert (imap (cell font (length init + 1 + 1) line) init
            = imap (cell font (length init + 1) line) init) as ->.
    { apply imap_ext. intros i x Hi. apply lookup_lt_Some in Hi.
      unfold cell. destruct (chars font !! [x]); [|done].
      rewrite !bool_decide_eq_true_2 by lia. done. }
    apply (f_equal (app _)). unfold cell.
    destruct (chars font !! [z]); [|done].
    rewrite bool_decide_eq_true_2 by lia.
    rewrite bool_decide_eq_false_2 by lia.
    by rewrite app_nil_r, <- (assoc (++)).
Qed.

Section BlankTemplate.
Context (font : CfontsFont).
Hypothesis template_blank :
  ∀ ls row, letterspace font = Some ls → row ∈ ls →
            forallb isWhiteSpace (stripColorTags row) = true.

Lemma spacing_blank (line : nat) :
  forallb isWhiteSpace (spacing font line) = true.
Proof using template_blank.
  unfold spacing, at_or. destruct (letterspace font) as [ls|] eqn:Hls; [|done].
  destruct (ls !! line) as [[|c r]|] eqn:Hl; [done| |done].
  eapply template_blank; [done|]. by eapply list_elem_of_lookup_2.
Qed.

Lemma letterGap_blank (line : nat) :
  forallb isWhiteSpace (letterGap font line) = true.
Proof using template_blank.
  unfold letterGap, at_or. destruct (letterspace font) as [ls|] eqn:Hls; [|done].
  destruct (ls !! line) as [[|c r]|] eqn:Hl; [done| |done].
  eapply template_blank; [done|]. by eapply list_elem_of_lookup_2.
Qed.

Lemma joined_snoc_unmapped (input : str) (u : N) :
  chars font !! [u] = None →
  joined font (input ++ [u]) = joined font input.
Proof using template_blank.
  intros Hu. unfold joined. f_equal. rewrite !compose_rows.
  rewrite <- !list_fmap_compose. apply list_fmap_ext. intros _ line _. simpl.
  destruct (rowOf_snoc_unmapped font input u line Hu) as (gap & Hgap & ->).
  apply trimTrailing_app_blank. rewrite forallb_app, spacing_blank, andb_true_r.
  destruct Hgap as [->| ->]; [done|apply letterGap_blank].
Qed.
End BlankTemplate.

(** X7.  For a font whose spacing template is blank once stripped (or that
    has none), a last character without glyph data, such as a space typed
    at the end, does not change the result of [renderCfonts]. *)
Theorem trailing_unmapped_invisible (data : gmap (list N) CfontsFont)
    (upper : str → str) (text fontName : str) (font : CfontsFont) (c u : N) :
  data !! fontName = Some font →
  upper (text ++ [c]) = upper text ++ [u] →
  chars font !! [u] = None →
  (∀ ls row, letterspace font = Some ls → row ∈ ls →
             forallb isWhiteSpace (stripColorTags row) = true) →
  renderCfonts data upper (text ++ [c]) fontName
  = renderCfonts data upper text fontName.
Proof.
  intros Hfont Hup Hu Hblank.
  rewrite !renderCfonts_unfold, Hfont, Hup.
  by rewrite joined_snoc_unmapped.
Qed.

Lemma trailing_unmapped_invisible_witness :
  renderCfonts scenarioData asciiUpper (lit "a" ++ [SPACE]) (lit "demo")
  = renderCfonts scenarioData asciiUpper (lit "a") (lit "demo").
Proof.
  apply (trailing_unmapped_invisible scenarioData asciiUpper (lit "a")
           (lit "demo") scenarioFont SPACE SPACE).
  - vm_compute. reflexivity.
  - reflexivity.
  - vm_compute. reflexivity.
  - intros ls row [= <-]. rewrite !elem_of_cons, elem_of_nil.
    intros [->|[->|[]]]; reflexivity.
Defined.

(** ** More on the bitmap rasterizer *)

Import Session.

(** X8.  A style name that is not in [BITMAP_STYLE_NAMES] gives null
    without touching the generator: a generator that does not exist yet is
    not made. *)
Theorem renderBitmap_unknown_style (Generator : Type)
    (construct : completion Generator)
    (defineDefaultFont : Generator → Generator * bool)
    (generateText : Generator → str → completion (option matrix))
    (toAscii : Generator → matrix → str → str → completion str)
    (generator : option Generator) (text styleName : str) :
  styleName ∉ BITMAP_STYLE_NAMES →
  renderBitmap Generator construct defineDefaultFont generateText toAscii
    generator text styleName = (None, generator).
Proof.
  intros Hn. unfold renderBitmap.
  destruct (findStyle styleName) as [style|] eqn:Hs; [|done].
  exfalso. apply Hn. apply findStyle_Some in Hs as [Hin <-].
  unfold BITMAP_STYLE_NAMES. by apply list_elem_of_fmap_2.
Qed.

Lemma renderBitmap_unknown_style_witness :
  demoRender None (lit "HI") (lit "bitmap-zero") = (None, None).
Proof.
  apply (renderBitmap_unknown_style (gmap N matrix) (Normal ∅)
           (λ _, (demoFont, false)) demoGenerateText demoToAscii None
           (lit "HI") (lit "bitmap-zero")).
  apply (bool_decide_unpack _). vm_compute. exact I.
Defined.

Lemma renderBitmap_from_some (Generator : Type)
    (construct construct' : completion Generator)
    (defineDefaultFont defineDefaultFont' : Generator → Generator * bool)
    (generateText : Generator → str → completion (option matrix))
    (toAscii : Generator → matrix → str → str → completion str)
    (g : Generator) (text styleName : str) :
  (renderBitmap Generator construct defineDefaultFont generateText toAscii
     (Some g) text styleName).2 = Some g
  ∧ renderBitmap Generator construct defineDefaultFont generateText toAscii
      (Some g) text styleName
    = renderBitmap Generator construct' defineDefaultFont' generateText
        toAscii (Some g) text styleName.
Proof. unfold renderBitmap. by destruct (findStyle styleName). Qed.

(** X9.  Once the generator exists it is never made again nor replaced:
    whatever calls follow, the module variable keeps the same generator,
    every result is the one of a single call on that generator, and the
    constructor and the font loading play no part any more. *)
Theorem generator_is_a_singleton (Generator : Type)
    (construct construct' : completion Generator)
    (defineDefaultFont defineDefaultFont' : Generator → Generator * bool)
    (generateText : Generator → str → completion (option matrix))
    (toAscii : Generator → matrix → str → str → completion str)
    (g : Generator) (calls : list (list N * list N)) :
  renderMany Generator construct defineDefaultFont generateText toAscii
    (Some g) calls
  = ((λ call,
        (renderBitmap Generator construct' defineDefaultFont' generateText
           toAscii (Some g) call.1 call.2).1) <$> calls,
     Some g).
Proof.
  induction calls as [|[text styleName] calls IH]; [done|].
  cbn [renderMany].
  destruct (renderBitmap_from_some Generator construct construct'
              defineDefaultFont defineDefaultFont' generateText toAscii g
              text styleName) as [Hst Heq].
  destruct (renderBitmap _ construct defineDefaultFont _ _ (Some g) text
              styleName) as [result generator1] eqn:Hr.
  simpl in Hst. subst generator1. rewrite IH. rewrite fmap_cons.
  simpl. by rewrite <- Heq.
Qed.

(** X10.  The first call with a known style decides the generator for the
    whole session: if its making succeeds, every later call in the
    sequence works on that same generator. *)
Theorem first_call_makes_generator (Generator : Type)
    (construct : completion Generator)
    (defineDefaultFont : Generator → Generator * bool)
    (generateText : Generator → str → completion (option matrix))
    (toAscii : Generator → matrix → str → str → completion str)
    (g0 g : Generator) (text styleName : str) (style : Style)
    (calls : list (list N * list N)) :
  findStyle styleName = Some style →
  construct = Normal g0 →
  defineDefaultFont g0 = (g, false) →
  renderMany Generator construct defineDefaultFont generateText toAscii
    None ((text, styleName) :: calls)
  = ((λ call,
        (renderBitmap Generator construct defineDefaultFont generateText
           toAscii (Some g) call.1 call.2).1) <$> ((text, styleName) :: calls),
     Some g).
Proof.
  intros Hs Hc Hd. cbn [renderMany].
  assert (renderBitmap Generator construct defineDefaultFont generateText
            toAscii None text styleName
          = ((renderBitmap Generator construct defineDefaultFont generateText
                toAscii (Some g) text styleName).1, Some g)) as ->.
  { unfold renderBitmap. rewrite Hs. simpl. by rewrite Hc, Hd. }
  assert (∀ l, renderMany Generator construct defineDefaultFont generateText
                 toAscii (Some g) l
               = ((λ call,
                     (renderBitmap Generator construct defineDefaultFont
                        generateText toAscii (Some g) call.1 call.2).1) <$> l,
                  Some g)) as Hrest.
  { induction l as [|[t n] l IH]; [done|]. cbn [renderMany].
    destruct (renderBitmap_from_some Generator construct construct
                defineDefaultFont defineDefaultFont generateText toAscii g
                t n) as [Hst _].
    destruct (renderBitmap _ _ _ _ _ (Some g) t n) as [r g1] eqn:Hr.
    simpl in Hst. subst g1. rewrite IH, fmap_cons. simpl. by rewrite Hr. }
  by rewrite Hrest.
Qed.

Lemma first_call_makes_generator_witness :
  renderMany (gmap N matrix) (Normal ∅) (λ _, (demoFont, false))
    demoGenerateText demoToAscii None
    [(lit "HI", lit "bitmap-hash"); (lit "I", lit "bitmap-zero-one")]
  = ([Some (lit "# # #" ++ [NL] ++ lit "### #"); Some (lit "1" ++ [NL] ++ lit "1")],
     Some demoFont).
Proof.
  rewrite (first_call_makes_generator (gmap N matrix) (Normal ∅)
             (λ _, (demoFont, false)) demoGenerateText demoToAscii
             ∅ demoFont (lit "HI") (lit "bitmap-hash") styleHash
             [(lit "I", lit "bitmap-zero-one")]).
  - vm_compute. reflexivity.
  - vm_compute. reflexivity.
  - reflexivity.
  - reflexivity.
Defined.

(** ** More on the catalog *)

Import Card.

Lemma trim_blank (s : str) : forallb isWhiteSpace s = true → trim s = [].
Proof.
  intros Hs. unfold trim.
  assert (trimLeading s = []) as ->; [|done].
  induction s as [|c s IH]; [done|]. simpl in *.
  apply andb_true_iff in Hs as [Hc Hs]. rewrite Hc. by apply IH.
Qed.

(** X11.  An entry is displayed exactly when it was collected for the
    active tab and either the search is blank once trimmed, or its
    lower-cased display name or its source tag includes the lower-cased
    query; sorting loses and adds nothing. *)
Theorem displayed_membership (FEATURED_FONTS CFONTS_NAMES : list (list N))
    (toLowerCase : str → str) (localeCompare : str → str → Z)
    (libraryFilter : LibraryFilter) (search : str)
    (loadedFonts : list (list N)) :
  displayedFonts FEATURED_FONTS CFONTS_NAMES toLowerCase localeCompare
    libraryFilter search loadedFonts
  ≡ₚ searched toLowerCase search
       (collected FEATURED_FONTS CFONTS_NAMES libraryFilter loadedFonts)
  ∧ ∀ e,
      e ∈ displayedFonts FEATURED_FONTS CFONTS_NAMES toLowerCase
            localeCompare libraryFilter search loadedFonts
      ↔ e ∈ collected FEATURED_FONTS CFONTS_NAMES libraryFilter loadedFonts
        ∧ (trim search = []
           ∨ includes (toLowerCase (displayName e)) (toLowerCase search)
             || includes (tag (source e)) (toLowerCase search) = true).
Proof.
  split; [apply sort_perm|]. intros e. unfold displayedFonts.
  rewrite sort_perm. unfold searched.
  destruct (trim search) as [|c r] eqn:Ht.
  - split; [by auto|]. by intros [? _].
  - rewrite list_elem_of_filter. unfold matches.
    rewrite Is_true_true. split.
    + intros [Hm Hin]. split; [done|]. by right.
    + intros [Hin [?|Hm]]; [done|]. by split.
Qed.

(** X12.  A search that is empty or made of white space only filters
    nothing: the list holds every collected entry, so on the tab [all] it
    has one entry per loaded font, per name of [CFONTS_NAMES] and per
    bitmap style, and on the tabs [cfonts] and [bitmap] its length does not
    depend on the loaded fonts. *)
Theorem blank_search_shows_all (FEATURED_FONTS CFONTS_NAMES : list (list N))
    (toLowerCase : str → str) (localeCompare : str → str → Z)
    (search : str) (loadedFonts : list (list N)) :
  forallb isWhiteSpace search = true →
  let shown := λ libraryFilter,
    displayedFonts FEATURED_FONTS CFONTS_NAMES toLowerCase localeCompare
      libraryFilter search loadedFonts in
  (∀ libraryFilter,
     shown libraryFilter
     ≡ₚ collected FEATURED_FONTS CFONTS_NAMES libraryFilter loadedFonts)
  ∧ length (shown all)
    = (length loadedFonts + length CFONTS_NAMES + 10)%nat
  ∧ length (shown only_figlet) = length loadedFonts
  ∧ length (shown only_cfonts) = length CFONTS_NAMES
  ∧ length (shown only_bitmap) = 10%nat.
Proof.
  intros Hblank shown.
  assert (∀ f, shown f
               ≡ₚ collected FEATURED_FONTS CFONTS_NAMES f loadedFonts)
    as Hperm.
  { intros f. subst shown. cbv beta. unfold displayedFonts.
    rewrite sort_perm. unfold searched. by rewrite trim_blank. }
  split; [exact Hperm|].
  rewrite !Hperm. unfold collected. simpl.
  rewrite !length_app, !length_fmap. simpl. repeat split; lia.
Qed.

Lemma blank_search_shows_all_witness :
  length (demoDisplayed (lit "  ")) = (3 + 2 + 10)%nat.
Proof.
  destruct (blank_search_shows_all [lit "Standard"] [lit "tiny"; lit "block"]
              asciiLower unitCompare (lit "  ")
              [lit "Zeta"; lit "Standard"; lit "Alpha"]) as (_ & H & _).
  - reflexivity.
  - exact H.
Defined.

Lemma collected_single_source (FEATURED_FONTS CFONTS_NAMES : list (list N))
    (libraryFilter : LibraryFilter) (loadedFonts : list (list N))
    (e : FontEntry) :
  libraryFilter ≠ all →
  e ∈ collected FEATURED_FONTS CFONTS_NAMES libraryFilter loadedFonts →
  source e = tabSource libraryFilter.
Proof.
  intros Hf. unfold collected. rewrite !elem_of_app.
  intros [He|[He|He]]; case_bool_decide as Hc;
    try (by apply elem_of_nil in He);
    apply list_elem_of_fmap in He as (x & -> & _);
    destruct Hc as [Hc|Hc]; [done|by rewrite Hc..].
Qed.

Section SingleTab.
Context (localeCompare : str → str → Z) (libraryFilter : LibraryFilter).
Hypothesis not_all : libraryFilter ≠ all.
Hypothesis localeCompare_antisym :
  ∀ a b, Z.sgn (localeCompare a b) = (- Z.sgn (localeCompare b a))%Z.
Hypothesis localeCompare_trans :
  ∀ a b c, (localeCompare a b ≤ 0)%Z → (localeCompare b c ≤ 0)%Z →
           (localeCompare a c ≤ 0)%Z.

Lemma compareEntries_single_nonneg (a b : FontEntry) :
  (0 ≤ compareEntries localeCompare libraryFilter b a)%Z
  ↔ (featured a = true ∧ featured b = false)
    ∨ (featured a = featured b
       ∧ (localeCompare (displayName a) (displayName b) ≤ 0)%Z).
Proof using not_all localeCompare_antisym.
  rewrite <- (localeCompare_flip localeCompare localeCompare_antisym).
  unfold compareEntries.
  rewrite (bool_decide_eq_false_2 (libraryFilter = all)) by done.
  destruct (featured a), (featured b); simpl; split; intros H;
    try lia; try (by left); try (right; by split);
    destruct H as [[? ?]|[? ?]]; (done || lia).
Qed.

Lemma compareEntries_single_neg (a b : FontEntry) :
  (compareEntries localeCompare libraryFilter a b < 0)%Z →
  (0 ≤ compareEntries localeCompare libraryFilter b a)%Z.
Proof using not_all localeCompare_antisym.
  intros H.
  destruct (decide (0 ≤ compareEntries localeCompare libraryFilter b a)%Z)
    as [|Hn]; [done|]. exfalso.
  assert (¬ (0 ≤ compareEntries localeCompare libraryFilter a b)%Z) as Hn'
    by lia.
  rewrite compareEntries_single_nonneg in Hn, Hn'.
  pose proof (localeCompare_flip localeCompare localeCompare_antisym
                (displayName b) (displayName a)) as Hflip.
  destruct (featured a), (featured b);
    try (apply Hn; by left); try (apply Hn'; by left).
  - destruct (decide (localeCompare (displayName a) (displayName b) ≤ 0)%Z).
    + apply Hn. by right.
    + apply Hn'. right. split; [done|]. apply Hflip. lia.
  - destruct (decide (localeCompare (displayName a) (displayName b) ≤ 0)%Z).
    + apply Hn. by right.
    + apply Hn'. right. split; [done|]. apply Hflip. lia.
Qed.

Lemma compareEntries_single_trans :
  Transitive (λ a b : FontEntry,
    (0 ≤ compareEntries localeCompare libraryFilter b a)%Z).
Proof using not_all localeCompare_antisym localeCompare_trans.
  intros a b c. rewrite !compareEntries_single_nonneg.
  intros [[Ha Hb]|[Hab Hab']] [[Hb' Hc]|[Hbc Hbc']].
  - congruence.
  - left. split; congruence.
  - left. split; congruence.
  - right. split; [congruence|]. by eapply localeCompare_trans.
Qed.
End SingleTab.

(** X13.  On a single-library tab, with [localeCompare] a consistent
    comparison, every displayed entry belongs to the library of the tab,
    featured entries come before the others, and entries with the same
    featured flag are in the order of their display names. *)
Theorem displayed_order_single (FEATURED_FONTS CFONTS_NAMES : list (list N))
    (toLowerCase : str → str) (localeCompare : str → str → Z)
    (libraryFilter : LibraryFilter) (search : str)
    (loadedFonts : list (list N)) :
  libraryFilter ≠ all →
  (∀ a b, Z.sgn (localeCompare a b) = (- Z.sgn (localeCompare b a))%Z) →
  (∀ a b c, (localeCompare a b ≤ 0)%Z → (localeCompare b c ≤ 0)%Z →
            (localeCompare a c ≤ 0)%Z) →
  let out := displayedFonts FEATURED_FONTS CFONTS_NAMES toLowerCase
               localeCompare libraryFilter search loadedFonts in
  (∀ e, e ∈ out → source e = tabSource libraryFilter)
  ∧ ∀ i j x y, (i < j)%nat → out !! i = Some x → out !! j = Some y →
      (featured y = true → featured x = true)
      ∧ (featured x = featured y →
         (localeCompare (displayName x) (displayName y) ≤ 0)%Z).
Proof.
  intros Hf Hanti Htrans out. split.
  - intros e He. subst out. unfold displayedFonts in He.
    rewrite sort_perm in He. unfold searched in He.
    apply (collected_single_source FEATURED_FONTS CFONTS_NAMES libraryFilter
             loadedFonts); [done|].
    destruct (trim search); [done|].
    by apply list_elem_of_filter in He as [_ ?].
  - intros i j x y Hij Hi Hj.
    assert (0 ≤ compareEntries localeCompare libraryFilter y x)%Z as Hxy.
    { apply (StronglySorted_lookup
               (λ a b, (0 ≤ compareEntries localeCompare libraryFilter b a)%Z)
               out i j x y); [|done..].
      apply sort_sorted.
      - by apply compareEntries_single_neg.
      - by apply compareEntries_single_trans. }
    apply compareEntries_single_nonneg in Hxy; [|done..].
    destruct Hxy as [[Hx Hy]|[Hfe Hle]].
    + split; [done|]. congruence.
    + split; [congruence|done].
Qed.

Lemma displayed_order_single_witness :
  let out := displayedFonts [lit "Standard"] [lit "tiny"; lit "block"]
               asciiLower unitCompare only_figlet []
               [lit "Zeta"; lit "Standard"; lit "Alpha"] in
  (∀ e, e ∈ out → source e = figlet)
  ∧ ∀ i j x y, (i < j)%nat → out !! i = Some x → out !! j = Some y →
      (featured y = true → featured x = true)
      ∧ (featured x = featured y →
         (unitCompare (displayName x) (displayName y) ≤ 0)%Z).
Proof.
  apply (displayed_order_single [lit "Standard"] [lit "tiny"; lit "block"]
           asciiLower unitCompare only_figlet []
           [lit "Zeta"; lit "Standard"; lit "Alpha"]).
  - discriminate.
  - exact unitCompare_antisym.
  - exact unitCompare_trans.
Defined.

(** ** More on the batch font loader *)

Section LoaderInvariants.
Context (FIGLET_FONT_NAMES FEATURED_FONTS : list (list N))
        (FontData : Type)
        (fontModules : gmap (list N) (completion FontData))
        (parseFont : str → FontData → completion unit)
        (cancelled : nat → bool).

Local Abbreviation loads' := (loads FontData fontModules parseFont).
Local Abbreviation batch' := (loadFontBatch FontData fontModules parseFont).
Local Abbreviation remaining' :=
  (remaining FIGLET_FONT_NAMES FEATURED_FONTS).
Local Abbreviation loop :=
  (batches FIGLET_FONT_NAMES FEATURED_FONTS FontData fontModules parseFont
     cancelled).
Local Abbreviation batchAt i := (take BATCH_SIZE (drop i remaining')).
Local Abbreviation featuredDone :=
  (batch' FEATURED_FONTS initial).

(** The rule of the loop of [loadAllFonts]: an invariant of the iterations
    that are not cancelled gives a property of the state at each of the
    three ways out, and the loop does end. *)
Lemma batches_rule (Inv : nat → nat → LoaderState → Prop)
    (Post : LoaderState → Prop) :
  (∀ i awaits st,
     Inv i awaits st → (i < length remaining')%nat →
     cancelled awaits = false → cancelled (S awaits) = false →
     Inv (i + BATCH_SIZE)%nat (S awaits)
       (publish (length FEATURED_FONTS + i + length (batchAt i))
          (batch' (batchAt i) st))) →
  (∀ i awaits st,
     Inv i awaits st → (length remaining' ≤ i)%nat →
     Post {| loadedFontsRef := loadedFontsRef st; published := published st;
             progress := progress st; isLoading := false;
             warnings := warnings st |}) →
  (∀ i awaits st,
     Inv i awaits st → (i < length remaining')%nat →
     cancelled awaits = true → Post st) →
  (∀ i awaits st,
     Inv i awaits st → (i < length remaining')%nat →
     cancelled awaits = false → cancelled (S awaits) = true →
     Post (batch' (batchAt i) st)) →
  ∀ fuel i awaits st,
    (length remaining' - i < fuel)%nat → Inv i awaits st →
    ∃ st', loop fuel i awaits st = Some st' ∧ Post st'.
Proof.
  intros Hstep Hdone Hc1 Hc2.
  induction fuel as [|fuel IH]; intros i awaits st Hfuel HI; [lia|].
  cbn [batches]. case_bool_decide as Hi.
  - destruct (cancelled awaits) eqn:Ha.
    + eexists; split; [done|]. by eapply Hc1.
    + destruct (cancelled (S awaits)) eqn:Hb.
      * eexists; split; [done|]. by eapply Hc2.
      * apply IH; [unfold BATCH_SIZE; lia|]. by apply Hstep.
  - eexists; split; [done|]. eapply Hdone; [done|lia].
Qed.

(** The same for [loadAllFonts] as a whole, from the initial state. *)
Lemma loadAllFonts_rule (Inv : nat → nat → LoaderState → Prop)
    (Post : LoaderState → Prop) :
  (cancelled 1 = true → Post featuredDone) →
  (cancelled 1 = false →
   Inv 0%nat 1%nat (publish (length FEATURED_FONTS) featuredDone)) →
  (∀ i awaits st,
     Inv i awaits st → (i < length remaining')%nat →
     cancelled awaits = false → cancelled (S awaits) = false →
     Inv (i + BATCH_SIZE)%nat (S awaits)
       (publish (length FEATURED_FONTS + i + length (batchAt i))
          (batch' (batchAt i) st))) →
  (∀ i awaits st,
     Inv i awaits st → (length remaining' ≤ i)%nat →
     Post {| loadedFontsRef := loadedFontsRef st; published := published st;
             progress := progress st; isLoading := false;
             warnings := warnings st |}) →
  (∀ i awaits st,
     Inv i awaits st → (i < length remaining')%nat →
     cancelled awaits = true → Post st) →
  (∀ i awaits st,
     Inv i awaits st → (i < length remaining')%nat →
     cancelled awaits = false → cancelled (S awaits) = true →
     Post (batch' (batchAt i) st)) →
  ∃ st',
    loadAllFonts FIGLET_FONT_NAMES FEATURED_FONTS FontData fontModules
      parseFont cancelled initial = Some st'
    ∧ Post st'.
Proof.
  intros Hstop Hinit Hstep Hdone Hc1 Hc2. unfold loadAllFonts.
  destruct (cancelled 1) eqn:H1.
  - eexists; split; [done|]. by apply Hstop.
  - apply (batches_rule Inv Post); [done..|lia|by apply Hinit].
Qed.

Lemma loadFontBatch_elem (batch : list (list N)) (st : LoaderState)
    (f : list N) :
  f ∈ loadedFontsRef (batch' batch st)
  ↔ (loads' f = true ∧ f ∈ batch) ∨ f ∈ loadedFontsRef st.
Proof.
  rewrite loadFontBatch_ref, elem_of_union, elem_of_list_to_set,
    list_elem_of_filter, Is_true_true. done.
Qed.

Lemma batchAt_elem (i : nat) (f : list N) :
  f ∈ batchAt i → f ∈ FIGLET_FONT_NAMES ∧ f ∉ FEATURED_FONTS.
Proof.
  intros Hf%subseteq_take%subseteq_drop. unfold remaining in Hf.
  apply list_elem_of_filter in Hf as [? ?]. done.
Qed.

Lemma batchAt_length (i : nat) :
  (i < length remaining')%nat →
  (0 < length (batchAt i) ≤ BATCH_SIZE)%nat
  ∧ (i + length (batchAt i) ≤ length remaining')%nat
  ∧ (length remaining' ≤ i + BATCH_SIZE →
     i + length (batchAt i) = length remaining')%nat.
Proof.
  intros Hi. rewrite length_take, length_drop. unfold BATCH_SIZE. lia.
Qed.
End LoaderInvariants.

Lemma loadFontBatch_grows (FontData : Type)
    (fontModules : gmap (list N) (completion FontData))
    (parseFont : str → FontData → completion unit)
    (batch : list (list N)) (st : LoaderState) :
  loadedFontsRef st
  ⊆ loadedFontsRef (loadFontBatch FontData fontModules parseFont batch st).
Proof. rewrite loadFontBatch_ref. apply union_subseteq_r. Qed.

Lemma loads_true (FontData : Type)
    (fontModules : gmap (list N) (completion FontData))
    (parseFont : str → FontData → completion unit) (f : list N) :
  loads FontData fontModules parseFont f = true
  ↔ ∃ module, fontModules !! modulePath f = Some (Normal module)
              ∧ parseFont f module = Normal ().
Proof.
  unfold loads. split.
  - destruct (fontModules !! modulePath f) as [[module|]|]; [|done..].
    destruct (parseFont f module) as [[]|] eqn:Hp; [|done].
    intros _. by exists module.
  - intros (module & -> & ->). done.
Qed.

(** X14.  Whether the loader is cancelled or not, and at whichever read of
    the flag, [loadAllFonts] returns, and every name in
    [loadedFontsRef.current] is a featured name or a name of
    [FIGLET_FONT_NAMES] whose module was found, imported and parsed without
    an exception. *)
Theorem loaded_fonts_sound (FIGLET_FONT_NAMES FEATURED_FONTS : list (list N))
    (FontData : Type) (fontModules : gmap (list N) (completion FontData))
    (parseFont : str → FontData → completion unit) (cancelled : nat → bool) :
  ∃ st,
    loadAllFonts FIGLET_FONT_NAMES FEATURED_FONTS FontData fontModules
      parseFont cancelled initial = Some st
    ∧ ∀ f, f ∈ loadedFontsRef st →
        (f ∈ FEATURED_FONTS ∨ f ∈ FIGLET_FONT_NAMES)
        ∧ ∃ module, fontModules !! modulePath f = Some (Normal module)
                    ∧ parseFont f module = Normal ().
Proof.
  set (Q := λ st : LoaderState, ∀ f, f ∈ loadedFontsRef st →
         (f ∈ FEATURED_FONTS ∨ f ∈ FIGLET_FONT_NAMES)
         ∧ loads FontData fontModules parseFont f = true).
  assert (Q (loadFontBatch FontData fontModules parseFont FEATURED_FONTS
               initial)) as Hfeatured.
  { intros f [[Hl Hf]|Hf]%loadFontBatch_elem; [by auto|].
    by apply elem_of_empty in Hf. }
  destruct (loadAllFonts_rule FIGLET_FONT_NAMES FEATURED_FONTS FontData
              fontModules parseFont cancelled (λ _ _, Q) Q)
    as (st & Hrun & Hst); try done.
  - intros i awaits st HQ _ _ _ f [[Hl Hf]|Hf]%loadFontBatch_elem;
      [|by apply HQ].
    apply batchAt_elem in Hf as [Hf _]. by auto.
  - intros i awaits st HQ _ _ _ f [[Hl Hf]|Hf]%loadFontBatch_elem;
      [|by apply HQ].
    apply batchAt_elem in Hf as [Hf _]. by auto.
  - exists st. split; [done|]. intros f [Hf Hl]%Hst. split; [done|].
    by apply loads_true.
Qed.

(** X15.  Whether the loader is cancelled or not, the sets handed to
    [setLoadedFonts] only grow from one call to the next and each of them is
    contained in [loadedFontsRef.current] at the end; the values handed to
    [setLoadingProgress] strictly increase, lie between the number of
    featured fonts and that number plus the number of remaining fonts, and
    there is one of them per published set. *)
Theorem snapshots_only_grow (FIGLET_FONT_NAMES FEATURED_FONTS : list (list N))
    (FontData : Type) (fontModules : gmap (list N) (completion FontData))
    (parseFont : str → FontData → completion unit) (cancelled : nat → bool) :
  ∃ st,
    loadAllFonts FIGLET_FONT_NAMES FEATURED_FONTS FontData fontModules
      parseFont cancelled initial = Some st
    ∧ (∀ s, s ∈ published st → s ⊆ loadedFontsRef st)
    ∧ (∀ i j a b, (i < j)%nat →
         published st !! i = Some a → published st !! j = Some b → b ⊆ a)
    ∧ (∀ i j p q, (i < j)%nat →
         progress st !! i = Some p → progress st !! j = Some q → (q < p)%nat)
    ∧ (∀ p, p ∈ progress st →
         (length FEATURED_FONTS ≤ p
          ≤ length FEATURED_FONTS
            + length (remaining FIGLET_FONT_NAMES FEATURED_FONTS))%nat)
    ∧ length (progress st) = length (published st).
Proof.
  set (F := length FEATURED_FONTS).
  set (R := length (remaining FIGLET_FONT_NAMES FEATURED_FONTS)).
  set (Post := λ st : LoaderState,
     StronglySorted (λ a b : gset (list N), b ⊆ a) (published st)
     ∧ Forall (λ s, s ⊆ loadedFontsRef st) (published st)
     ∧ StronglySorted (λ p q : nat, (q < p)%nat) (progress st)
     ∧ Forall (λ p, (F ≤ p ≤ F + R)%nat) (progress st)
     ∧ length (progress st) = length (published st)).
  assert (∀ batch st, Post st →
            Post (loadFontBatch FontData fontModules parseFont batch st))
    as Hbatch.
  { intros batch st (H1 & H2 & H3 & H4 & H5). unfold Post.
    destruct (loadFontBatch_published FontData fontModules parseFont batch st)
      as (-> & -> & _).
    repeat split; try done.
    eapply Forall_impl; [exact H2|]. intros s Hs. etrans; [exact Hs|].
    apply loadFontBatch_grows. }
  assert (Post initial) as Hinitial.
  { unfold Post. simpl. repeat split; constructor. }
  destruct (loadAllFonts_rule FIGLET_FONT_NAMES FEATURED_FONTS FontData
              fontModules parseFont cancelled
              (λ i _ st, Post st
                         ∧ Forall (λ p, (p ≤ F + i)%nat) (progress st))
              Post)
    as (st & Hrun & H1 & H2 & H3 & H4 & H5).
  - intros _. by apply Hbatch.
  - intros _.
    destruct (loadFontBatch_published FontData fontModules parseFont
                FEATURED_FONTS initial) as (Hp & Hq & _).
    unfold Post. cbn [publish published progress loadedFontsRef].
    rewrite Hp, Hq. cbn [initial published progress length].
    split; [split; [|split; [|split; [|split]]]|].
    + repeat constructor.
    + by repeat constructor.
    + repeat constructor.
    + constructor; [lia|constructor].
    + done.
    + constructor; [lia|constructor].
  - intros i awaits st [HP Hle] Hi _ _.
    pose proof (batchAt_length FIGLET_FONT_NAMES FEATURED_FONTS i Hi)
      as (Hlen & Hsum & _).
    destruct (Hbatch (take BATCH_SIZE
                        (drop i (remaining FIGLET_FONT_NAMES FEATURED_FONTS)))
                st HP) as (H1 & H2 & H3 & H4 & H5).
    destruct (loadFontBatch_published FontData fontModules parseFont
                (take BATCH_SIZE
                   (drop i (remaining FIGLET_FONT_NAMES FEATURED_FONTS))) st)
      as (_ & Hq & _).
    unfold Post. cbn [publish published progress loadedFontsRef length].
    rewrite Hq in *.
    split; [split; [|split; [|split; [|split]]]|].
    + constructor; [done|]. eapply Forall_impl; [exact H2|]. done.
    + constructor; [done|exact H2].
    + constructor; [done|]. eapply Forall_impl; [exact Hle|].
      intros p Hp. simpl in *. lia.
    + constructor; [|exact H4]. fold R in Hsum. fold F. lia.
    + by f_equal.
    + constructor; [unfold BATCH_SIZE in *; fold F; lia|].
      eapply Forall_impl; [exact Hle|]. intros p Hp. simpl in *. lia.
  - intros i awaits st [HP _] _. exact HP.
  - intros i awaits st [HP _] _ _. exact HP.
  - intros i awaits st [HP _] _ _ _. by apply Hbatch.
  - exists st. split; [done|]. split; [|split; [|split; [|split]]].
    + intros s Hs. by apply (proj1 (Forall_forall _ _) H2).
    + intros i j a b Hij Ha Hb.
      by apply (StronglySorted_lookup (λ a b : gset (list N), b ⊆ a)
                  (published st) i j a b).
    + intros i j p q Hij Hp Hq.
      by apply (StronglySorted_lookup (λ p q : nat, (q < p)%nat)
                  (progress st) i j p q).
    + intros p Hp. by apply (proj1 (Forall_forall _ _) H4).
    + done.
Qed.

(** X16.  The flag [cancelled] can only change while a batch is awaited,
    so what counts is its value after each awaited batch.  A set is
    published only after a read that found the flag clear; the
    loader stops at the first read that finds it set, leaving [isLoading]
    true; and [setIsLoading(false)] is reached exactly when all
    [ceil(remaining.length / 20) + 1] reads found the flag clear, in which
    case that many sets were published. *)
Theorem loading_ends_iff_never_cancelled
    (FIGLET_FONT_NAMES FEATURED_FONTS : list (list N))
    (FontData : Type) (fontModules : gmap (list N) (completion FontData))
    (parseFont : str → FontData → completion unit) (cancelled : nat → bool) :
  let reads :=
    S (ceil_div (length (remaining FIGLET_FONT_NAMES FEATURED_FONTS))
         BATCH_SIZE) in
  ∃ st,
    loadAllFonts FIGLET_FONT_NAMES FEATURED_FONTS FontData fontModules
      parseFont cancelled initial = Some st
    ∧ (∀ k, (1 ≤ k ≤ length (published st))%nat → cancelled k = false)
    ∧ (isLoading st = true →
       cancelled (S (length (published st))) = true
       ∧ (length (published st) < reads)%nat)
    ∧ (isLoading st = false → length (published st) = reads)
    ∧ (isLoading st = false
       ↔ ∀ k, (1 ≤ k ≤ reads)%nat → cancelled k = false).
Proof.
  intros reads.
  set (R := length (remaining FIGLET_FONT_NAMES FEATURED_FONTS)) in *.
  set (Post := λ st : LoaderState,
     (∀ k, (1 ≤ k ≤ length (published st))%nat → cancelled k = false)
     ∧ ((isLoading st = true
         ∧ cancelled (S (length (published st))) = true
         ∧ (length (published st) < reads)%nat)
        ∨ (isLoading st = false ∧ length (published st) = reads))).
  set (Inv := λ (i awaits : nat) (st : LoaderState),
     awaits = length (published st)
     ∧ isLoading st = true
     ∧ (∀ k, (1 ≤ k ≤ awaits)%nat → cancelled k = false)
     ∧ i = ((awaits - 1) * BATCH_SIZE)%nat
     ∧ (1 ≤ awaits ≤ reads)%nat).
  assert (∀ i awaits, i = ((awaits - 1) * BATCH_SIZE)%nat →
            (i < R)%nat → (awaits ≤ ceil_div R BATCH_SIZE)%nat) as Hmore.
  { intros i awaits -> Hi.
    destruct (decide (ceil_div R BATCH_SIZE ≤ awaits - 1)%nat) as [Hc|Hc];
      [|lia].
    apply ceil_div_least in Hc. lia. }
  destruct (loadAllFonts_rule FIGLET_FONT_NAMES FEATURED_FONTS FontData
              fontModules parseFont cancelled Inv Post)
    as (st & Hrun & Hpub & Hend).
  - intros H1.
    destruct (loadFontBatch_published FontData fontModules parseFont
                FEATURED_FONTS initial) as (Hp & _ & Hl).
    unfold Post. rewrite Hp, Hl. cbn [initial published isLoading length].
    split; [intros k Hk; lia|]. left. subst reads. split; [done|].
    split; [done|lia].
  - intros H1.
    destruct (loadFontBatch_published FontData fontModules parseFont
                FEATURED_FONTS initial) as (Hp & _ & Hl).
    unfold Inv. cbn [publish published isLoading]. rewrite Hp, Hl.
    cbn [initial published isLoading length]. subst reads.
    split; [done|]. split; [done|]. split; [|split; [done|lia]].
    intros k Hk. by replace k with 1%nat by lia.
  - intros i awaits st (Ha & Hl & Hk & Hi & Hr) Hlt Hc Hc'.
    destruct (loadFontBatch_published FontData fontModules parseFont
                (take BATCH_SIZE
                   (drop i (remaining FIGLET_FONT_NAMES FEATURED_FONTS)))
                st) as (Hp & _ & Hl').
    pose proof (Hmore i awaits Hi Hlt) as Hm.
    unfold Inv. cbn [publish published isLoading length]. rewrite Hp, Hl'.
    split; [by f_equal|]. split; [done|]. split; [|split].
    + intros k Hk'. destruct (decide (k = S awaits)) as [->|]; [done|].
      apply Hk. lia.
    + unfold BATCH_SIZE in *. lia.
    + subst reads. lia.
  - intros i awaits st (Ha & Hl & Hk & Hi & Hr) Hge.
    unfold Post. cbn [published isLoading]. rewrite <- Ha.
    split; [exact Hk|]. right. split; [done|].
    assert (ceil_div R BATCH_SIZE ≤ awaits - 1)%nat as Hc.
    { apply ceil_div_least. fold R in Hge. lia. }
    subst reads. lia.
  - intros i awaits st (Ha & Hl & Hk & Hi & Hr) Hlt Hc.
    rewrite Hk in Hc by lia. done.
  - intros i awaits st (Ha & Hl & Hk & Hi & Hr) Hlt Hc Hc'.
    destruct (loadFontBatch_published FontData fontModules parseFont
                (take BATCH_SIZE
                   (drop i (remaining FIGLET_FONT_NAMES FEATURED_FONTS)))
                st) as (Hp & _ & Hl').
    pose proof (Hmore i awaits Hi Hlt) as Hm.
    unfold Post. rewrite Hp, Hl', <- Ha.
    split; [exact Hk|]. left. split; [done|]. split; [done|].
    subst reads. lia.
  - exists st. split; [done|]. split; [done|].
    destruct Hend as [(Hl & Hc & Hlt)|[Hl Hlen]].
    + rewrite Hl. split; [done|]. split; [done|]. split; [done|].
      intros Hall. rewrite Hall in Hc by lia. done.
    + rewrite Hl. split; [done|]. split; [done|]. split; [|done].
      intros _ k Hk. apply Hpub. lia.
Qed.

(** X17.  The featured fonts are loaded before anything is published and
    before the flag is read: every featured font that loads is in
    [loadedFontsRef.current] at the end, cancelled or not.  Nothing is published exactly when
    the flag is set at the first read, and then the set holds the featured
    fonts only; otherwise the first published set is the set of the featured
    fonts that loaded, with the number of featured fonts as progress. *)
Theorem featured_fonts_first (FIGLET_FONT_NAMES FEATURED_FONTS : list (list N))
    (FontData : Type) (fontModules : gmap (list N) (completion FontData))
    (parseFont : str → FontData → completion unit) (cancelled : nat → bool) :
  let featuredLoaded : gset (list N) :=
    list_to_set
      (filter (λ f : list N, loads FontData fontModules parseFont f)
              FEATURED_FONTS) in
  ∃ st,
    loadAllFonts FIGLET_FONT_NAMES FEATURED_FONTS FontData fontModules
      parseFont cancelled initial = Some st
    ∧ featuredLoaded ⊆ loadedFontsRef st
    ∧ (published st = [] ↔ cancelled 1%nat = true)
    ∧ (cancelled 1%nat = true →
       loadedFontsRef st = featuredLoaded ∧ isLoading st = true)
    ∧ (cancelled 1%nat = false →
       last (published st) = Some featuredLoaded
       ∧ last (progress st) = Some (length FEATURED_FONTS)).
Proof.
  intros X.
  set (Inv := λ st : LoaderState,
     cancelled 1%nat = false ∧ X ⊆ loadedFontsRef st
     ∧ last (published st) = Some X
     ∧ last (progress st) = Some (length FEATURED_FONTS)).
  set (Post := λ st : LoaderState,
     Inv st
     ∨ (cancelled 1%nat = true ∧ published st = [] ∧ loadedFontsRef st = X
        ∧ isLoading st = true)).
  assert (loadedFontsRef
            (loadFontBatch FontData fontModules parseFont FEATURED_FONTS
               initial) = X) as HX.
  { rewrite loadFontBatch_ref. cbn [initial loadedFontsRef].
    by rewrite (right_id_L ∅ (∪)). }
  destruct (loadFontBatch_published FontData fontModules parseFont
              FEATURED_FONTS initial) as (Hp0 & Hq0 & Hl0).
  assert (∀ batch st, Inv st →
            Inv (loadFontBatch FontData fontModules parseFont batch st))
    as Hbatch.
  { intros batch st (H1 & H2 & H3 & H4). unfold Inv.
    destruct (loadFontBatch_published FontData fontModules parseFont batch st)
      as (-> & -> & _).
    split; [done|]. split; [|done]. etrans; [exact H2|].
    apply loadFontBatch_grows. }
  destruct (loadAllFonts_rule FIGLET_FONT_NAMES FEATURED_FONTS FontData
              fontModules parseFont cancelled (λ _ _, Inv) Post)
    as (st & Hrun & Hst).
  - intros H1. right. by rewrite Hp0, Hl0.
  - intros H1. unfold Inv. cbn [publish published progress loadedFontsRef].
    rewrite Hp0, Hq0, HX. done.
  - intros i awaits st HI _ _ _.
    destruct (Hbatch (take BATCH_SIZE
                        (drop i (remaining FIGLET_FONT_NAMES FEATURED_FONTS)))
                st HI) as (H1 & H2 & H3 & H4).
    unfold Inv. cbn [publish published progress loadedFontsRef].
    rewrite !last_cons, H3, H4. done.
  - intros i awaits st HI _. by left.
  - intros i awaits st HI _ _. by left.
  - intros i awaits st HI _ _ _. left. by apply Hbatch.
  - exists st. split; [done|].
    destruct Hst as [(H1 & H2 & H3 & H4)|(H1 & H2 & H3 & H4)].
    + split; [done|]. rewrite H1. split; [|done].
      split; [|done]. intros Hnil. by rewrite Hnil in H3.
    + rewrite H3, H1. done.
Qed.

(** X18.  When the loader is never cancelled, the final set holds exactly
    the names of [FEATURED_FONTS] and of [FIGLET_FONT_NAMES] that load
    (a featured name is loaded even if it is not among the font names), the
    last progress value is the number of featured names plus the number of
    remaining names, and one warning is logged per failed load attempt. *)
Theorem uncancelled_load_exact
    (FIGLET_FONT_NAMES FEATURED_FONTS : list (list N))
    (FontData : Type) (fontModules : gmap (list N) (completion FontData))
    (parseFont : str → FontData → completion unit) (cancelled : nat → bool) :
  (∀ k, cancelled k = false) →
  ∃ st,
    loadAllFonts FIGLET_FONT_NAMES FEATURED_FONTS FontData fontModules
      parseFont cancelled initial = Some st
    ∧ (∀ f, f ∈ loadedFontsRef st
            ↔ loads FontData fontModules parseFont f = true
              ∧ (f ∈ FEATURED_FONTS ∨ f ∈ FIGLET_FONT_NAMES))
    ∧ head (progress st)
      = Some (length FEATURED_FONTS
              + length (remaining FIGLET_FONT_NAMES FEATURED_FONTS))%nat
    ∧ warnings st
      = (length (filter (λ f : list N,
                           ¬ loads FontData fontModules parseFont f)
                        FEATURED_FONTS)
         + length (filter (λ f : list N,
                             ¬ loads FontData fontModules parseFont f)
                          (remaining FIGLET_FONT_NAMES FEATURED_FONTS)))%nat.
Proof.
  intros Hc.
  set (F := length FEATURED_FONTS).
  set (R := length (remaining FIGLET_FONT_NAMES FEATURED_FONTS)).
  destruct (loadFontBatch_published FontData fontModules parseFont
              FEATURED_FONTS initial) as (Hp0 & Hq0 & _).
  destruct (loadAllFonts_rule FIGLET_FONT_NAMES FEATURED_FONTS FontData
              fontModules parseFont cancelled
              (λ i _ st, head (progress st) = Some (F + i `min` R)%nat)
              (λ st, head (progress st) = Some (F + R)%nat))
    as (st & Hrun & Hprog).
  - by rewrite Hc.
  - intros _. cbn [publish progress head]. f_equal. lia.
  - intros i awaits st _ Hi _ _. cbn [publish progress head]. f_equal.
    rewrite length_take, length_drop. unfold BATCH_SIZE. fold R. lia.
  - intros i awaits st Hh Hi. cbn [progress]. rewrite Hh. f_equal.
    fold R in Hi. lia.
  - intros i awaits st _ _. by rewrite Hc.
  - intros i awaits st _ _ _. by rewrite Hc.
  - exists st. split; [exact Hrun|].
    unfold loadAllFonts in Hrun. rewrite Hc in Hrun.
    destruct (batches_run FIGLET_FONT_NAMES FEATURED_FONTS FontData
                fontModules parseFont cancelled
                (S (length (remaining FIGLET_FONT_NAMES FEATURED_FONTS))) 0 1
                (publish (length FEATURED_FONTS)
                   (loadFontBatch FontData fontModules parseFont
                      FEATURED_FONTS initial)) Hc)
      as (st' & Hrun' & _ & _ & Href & Hwarn & _); [lia|done|].
    rewrite Hrun in Hrun'. injection Hrun' as <-.
    split; [|split; [exact Hprog|]].
    + intros f. rewrite Href. cbn [publish loadedFontsRef].
      rewrite drop_0, elem_of_union, elem_of_list_to_set, list_elem_of_filter,
        loadFontBatch_elem, Is_true_true.
      unfold remaining. rewrite list_elem_of_filter.
      cbn [initial loadedFontsRef]. rewrite elem_of_empty.
      destruct (decide (f ∈ FEATURED_FONTS)); tauto.
    + rewrite Hwarn. cbn [publish warnings].
      rewrite loadFontBatch_warnings, drop_0. cbn [initial warnings]. lia.
Qed.

Lemma uncancelled_load_exact_witness :
  ∃ st, demoLoad initial = Some st
    ∧ ([72] ∉ loadedFontsRef st)
    ∧ head (progress st) = Some 45%nat
    ∧ warnings st = 1%nat.
Proof.
  destruct (uncancelled_load_exact demoNames demoFeatured unit demoModules
              (λ _ _, Normal ()) (λ _, false))
    as (st & Hrun & Hset & Hprog & Hwarn); [done|].
  exists st. split; [exact Hrun|]. split; [|split].
  - rewrite Hset. intros [Hl _]. vm_compute in Hl. discriminate.
  - rewrite Hprog. vm_compute. reflexivity.
  - rewrite Hwarn. vm_compute. reflexivity.
Defined.

(** ** The keys of the cards *)

Lemma reactKey_head (e : FontEntry) :
  head (reactKey e) = head (tag (source e)).
Proof. unfold reactKey. by destruct (source e). Qed.

Lemma keys_of_names (mk : list N → FontEntry) (s : Source)
    (l : list (list N)) :
  (∀ n, source (mk n) = s ∧ name (mk n) = n) →
  NoDup l → NoDup (reactKey <$> (mk <$> l)).
Proof.
  intros Hmk Hl. rewrite <- list_fmap_compose.
  apply NoDup_fmap_2_strong; [|done].
  intros a b _ _.
  change (reactKey (mk a) = reactKey (mk b) → a = b). unfold reactKey.
  destruct (Hmk a) as [-> ->], (Hmk b) as [-> ->].
  by intros H%app_inv_head%app_inv_head.
Qed.

Lemma keys_head {A} (mk : A → FontEntry) (s : Source) (l : list A)
    (k : list N) :
  (∀ x, source (mk x) = s) →
  k ∈ reactKey <$> (mk <$> l) → head k = head (tag s).
Proof.
  intros Hmk (e & -> & (x & -> & _)%list_elem_of_fmap)%list_elem_of_fmap.
  by rewrite reactKey_head, Hmk.
Qed.

Lemma collected_keys (FEATURED_FONTS CFONTS_NAMES : list (list N))
    (libraryFilter : LibraryFilter) (loadedFonts : list (list N)) :
  NoDup loadedFonts → NoDup CFONTS_NAMES →
  NoDup (reactKey
         <$> collected FEATURED_FONTS CFONTS_NAMES libraryFilter loadedFonts).
Proof.
  intros Hl Hc. unfold collected. rewrite !fmap_app.
  set (b1 := bool_decide (libraryFilter = all ∨ libraryFilter = only_figlet)).
  set (b2 := bool_decide (libraryFilter = all ∨ libraryFilter = only_cfonts)).
  set (b3 := bool_decide (libraryFilter = all ∨ libraryFilter = only_bitmap)).
  set (ka := reactKey <$> (if b1 then figletEntry FEATURED_FONTS <$> loadedFonts
                           else [])).
  set (kb := reactKey <$> (if b2 then cfontsEntry <$> CFONTS_NAMES else [])).
  set (kc := reactKey <$> (if b3 then bitmapEntry <$> Bitmap.BITMAP_STYLES
                           else [])).
  assert (NoDup ka ∧ ∀ k, k ∈ ka → head k = head (tag figlet)) as [Ha Ha'].
  { subst ka. destruct b1.
    - split; [by apply (keys_of_names _ figlet)|].
      intros k. by apply keys_head.
    - split; [constructor|]. by intros k ?%elem_of_nil. }
  assert (NoDup kb ∧ ∀ k, k ∈ kb → head k = head (tag cfonts)) as [Hb Hb'].
  { subst kb. destruct b2.
    - split; [by apply (keys_of_names _ cfonts)|].
      intros k. by apply keys_head.
    - split; [constructor|]. by intros k ?%elem_of_nil. }
  assert (NoDup kc ∧ ∀ k, k ∈ kc → head k = head (tag bitmap)) as [Hc0 Hc'].
  { subst kc. destruct b3.
    - split; [apply (bool_decide_unpack _); vm_compute; exact I|].
      intros k. by apply keys_head.
    - split; [constructor|]. by intros k ?%elem_of_nil. }
  apply NoDup_app. split; [done|]. split.
  - intros k Hk%Ha' [Hk'%Hb'|Hk'%Hc']%elem_of_app;
      rewrite Hk in Hk'; discriminate.
  - apply NoDup_app. split; [done|]. split; [|done].
    intros k Hk%Hb' Hk'%Hc'. rewrite Hk in Hk'. discriminate.
Qed.

(** X19.  When the loaded fonts are listed once each and [CFONTS_NAMES] has
    no repeated name, the keys [`${entry.source}-${entry.name}`] of the
    displayed cards are pairwise different, on every tab and for every
    search. *)
Theorem card_keys_unique (FEATURED_FONTS CFONTS_NAMES : list (list N))
    (toLowerCase : str → str) (localeCompare : str → str → Z)
    (libraryFilter : LibraryFilter) (search : str)
    (loadedFonts : list (list N)) :
  NoDup loadedFonts → NoDup CFONTS_NAMES →
  NoDup (reactKey
         <$> displayedFonts FEATURED_FONTS CFONTS_NAMES toLowerCase
               localeCompare libraryFilter search loadedFonts).
Proof.
  intros Hl Hc. unfold displayedFonts. rewrite sort_perm.
  apply (sublist_NoDup _
           (reactKey <$> collected FEATURED_FONTS CFONTS_NAMES libraryFilter
                           loadedFonts)); [by apply collected_keys|].
  apply fmap_sublist. unfold searched.
  destruct (trim search); [done|]. apply sublist_filter.
Qed.

Lemma card_keys_unique_witness :
  NoDup (reactKey <$> demoDisplayed (lit "a")).
Proof.
  apply (card_keys_unique [lit "Standard"] [lit "tiny"; lit "block"]
           asciiLower unitCompare all (lit "a")
           [lit "Zeta"; lit "Standard"; lit "Alpha"]).
  - apply (bool_decide_unpack _). vm_compute. exact I.
  - apply (bool_decide_unpack _). vm_compute. exact I.
Defined.

(** ** The font card *)

Lemma after_snoc (events : list Event) (e : Event) :
  after (events ++ [e]) = step (after events) e.
Proof. apply foldl_snoc. Qed.

(** What holds of a card after any sequence of events. *)
Lemma after_invariant (events : list Event) :
  (isVisible (after events) = true ↔ Intersect true ∈ events)
  ∧ (isVisible (after events) = false →
     rendered (after events) = None ∧ error (after events) = false)
  ∧ (error (after events) = true →
     rendered (after events) = None ∧ Render Throw ∈ events).
Proof.
  induction events as [|e events IH] using rev_ind.
  - cbn. split; [split; [done|by intros ?%elem_of_nil]|]. done.
  - rewrite after_snoc. destruct IH as (Hv & Hi & He).
    setoid_rewrite elem_of_app. setoid_rewrite elem_of_cons.
    setoid_rewrite elem_of_nil.
    destruct e as [[|]|[r|]]; cbn [step onIntersect renderEffect].
    + cbn. split; [by split; auto|]. split; [done|].
      intros [? ?]%He. by auto.
    + split; [|split].
      * rewrite Hv. split; [by auto|]. by intros [?|[?|?]].
      * done.
      * intros [? ?]%He. by auto.
    + unfold renderEffect.
      destruct (isVisible (after events)) eqn:Hvis; cbn; rewrite ?Hvis.
      * split; [|done].
        split; [intros _; left; by apply Hv|done].
      * split; [|split].
        -- rewrite <- Hv. split; [done|]. by intros [?|[?|?]].
        -- done.
        -- intros [? ?]%He. by auto.
    + unfold renderEffect.
      destruct (isVisible (after events)) eqn:Hvis; cbn; rewrite ?Hvis.
      * split; [|split; [done|by auto]].
        split; [intros _; left; by apply Hv|done].
      * split; [|split].
        -- rewrite <- Hv. split; [done|]. intros [?|[?|?]]; done.
        -- done.
        -- intros [? ?]%He. by auto.
Qed.

(** X20.  After any sequence of intersection reports and runs of the
    render effect since the card was mounted: [handleCopy] hands a text to
    the clipboard exactly when that text is the art on display; the card
    shows "Loading..." exactly as long as no intersection was reported; and
    it shows the error text only if some call of [renderFn] threw. *)
Theorem copy_iff_art_shown (events : list Event) :
  (∀ s, handleCopy (after events) = Some s ↔ preview (after events) = Art s)
  ∧ (preview (after events) = LoadingText ↔ Intersect true ∉ events)
  ∧ (preview (after events) = CouldNotRender → Render Throw ∈ events).
Proof.
  destruct (after_invariant events) as (Hv & Hi & He).
  unfold handleCopy, preview.
  destruct (isVisible (after events)) eqn:Hvis; cbn.
  - destruct (error (after events)) eqn:Herr.
    + destruct (He eq_refl) as [-> Ht].
      split; [done|]. split; [|done].
      split; [done|]. intros Hn. exfalso. apply Hn. by apply Hv.
    + split; [|split; [|by destruct (rendered (after events)) as [[|??]|]]].
      * intros s. destruct (rendered (after events)) as [[|c r]|];
          split; intros [= <-]; done.
      * split; [by destruct (rendered (after events)) as [[|??]|]|].
        intros Hn. exfalso. apply Hn. by apply Hv.
  - destruct (Hi eq_refl) as [-> _].
    split; [done|]. split; [|done].
    split; [|done]. intros _ Hin. apply Hv in Hin. done.
Qed.

(** X21.  A visible card of a FIGlet font shows the art exactly when the
    font is in [loadedFontsRef.current] and [figlet.textSync] returns a
    non-empty string; when the font is not loaded, [textSync] throws or
    returns the empty string it shows "Rendering...", and never the error
    text, whatever the card showed before. *)
Theorem figlet_card_preview (loaded : gset (list N))
    (textSync : str → str → completion str) (text font : str)
    (st : CardState) :
  let st' := renderEffect (Normal (renderFiglet loaded textSync text font))
               (onIntersect true st) in
  (∀ s, preview st' = Art s
        ↔ font ∈ loaded ∧ textSync text font = Normal s ∧ s ≠ [])
  ∧ (preview st' = RenderingText
     ↔ font ∉ loaded ∨ textSync text font = Throw
       ∨ textSync text font = Normal [])
  ∧ preview st' ≠ CouldNotRender
  ∧ preview st' ≠ LoadingText.
Proof.
  cbn. unfold preview, renderFiglet. cbn.
  case_bool_decide as Hin; cbn.
  - destruct (textSync text font) as [[|c r]|] eqn:Hts; cbn.
    + split; [|split; [|done]].
      * intros s. split; [done|]. intros (_ & [= <-] & ?). done.
      * split; [by auto|done].
    + split; [|split; [|done]].
      * intros s. split; [by intros [= <-]|]. by intros (_ & [= <-] & _).
      * split; [done|]. by intros [?|[?|?]].
    + split; [|split; [|done]].
      * intros s. split; [done|]. by intros (_ & ? & _).
      * split; [by auto|done].
  - split; [|split; [|done]].
    + intros s. split; [done|]. by intros (? & _).
    + split; [by auto|done].
Qed.

Lemma published_within_ref (FIGLET_FONT_NAMES FEATURED_FONTS : list (list N))
    (FontData : Type) (fontModules : gmap (list N) (completion FontData))
    (parseFont : str → FontData → completion unit) (cancelled : nat → bool) :
  ∃ st,
    loadAllFonts FIGLET_FONT_NAMES FEATURED_FONTS FontData fontModules
      parseFont cancelled initial = Some st
    ∧ ∀ s, s ∈ published st → s ⊆ loadedFontsRef st.
Proof.
  set (Q := λ st : LoaderState, ∀ s, s ∈ published st → s ⊆ loadedFontsRef st).
  assert (∀ batch st, Q st →
            Q (loadFontBatch FontData fontModules parseFont batch st))
    as Hbatch.
  { intros batch st HQ s.
    destruct (loadFontBatch_published FontData fontModules parseFont batch st)
      as (-> & _ & _).
    intros Hs%HQ. etrans; [exact Hs|]. apply loadFontBatch_grows. }
  assert (∀ n st, Q st → Q (publish n st)) as Hpublish.
  { intros n st HQ s [->|Hs]%elem_of_cons; [done|]. by apply HQ. }
  apply (loadAllFonts_rule FIGLET_FONT_NAMES FEATURED_FONTS FontData
           fontModules parseFont cancelled (λ _ _, Q) Q); try done.
  - intros _. apply Hbatch. by intros s ?%elem_of_nil.
  - intros _. apply Hpublish, Hbatch. by intros s ?%elem_of_nil.
  - intros i awaits st HQ _ _ _. by apply Hpublish, Hbatch.
  - intros i awaits st HQ _ _ _. by apply Hbatch.
Qed.

(** X22.  Whether the loader is cancelled or not: for every published set
    and every listing of fonts of that set, each FIGlet entry of the displayed
    list passes the check [loadedFontsRef.current.has(font)] of
    [renderFiglet], so its card is rendered by [figlet.textSync] and is null
    only if [textSync] throws. *)
Theorem displayed_figlet_fonts_are_loaded
    (FIGLET_FONT_NAMES FEATURED_FONTS CFONTS_NAMES : list (list N))
    (FontData : Type) (fontModules : gmap (list N) (completion FontData))
    (parseFont : str → FontData → completion unit) (cancelled : nat → bool)
    (toLowerCase : str → str) (localeCompare : str → str → Z) :
  ∃ st,
    loadAllFonts FIGLET_FONT_NAMES FEATURED_FONTS FontData fontModules
      parseFont cancelled initial = Some st
    ∧ ∀ (snapshot : gset (list N)) (loadedFonts : list (list N))
        (libraryFilter : LibraryFilter) (search : str) (e : FontEntry)
        (textSync : str → str → completion str) (text : str),
        snapshot ∈ published st →
        (∀ f, f ∈ loadedFonts → f ∈ snapshot) →
        e ∈ displayedFonts FEATURED_FONTS CFONTS_NAMES toLowerCase
              localeCompare libraryFilter search loadedFonts →
        source e = figlet →
        renderKey e ∈ loadedFontsRef st
        ∧ renderFiglet (loadedFontsRef st) textSync text (renderKey e)
          = match textSync text (renderKey e) with
            | Normal s => Some s
            | Throw => None
            end.
Proof.
  destruct (published_within_ref FIGLET_FONT_NAMES FEATURED_FONTS FontData
              fontModules parseFont cancelled) as (st & Hrun & Hpub).
  exists st. split; [exact Hrun|].
  intros snapshot loadedFonts libraryFilter search e textSync text
    Hsnap Hlist He Hsrc.
  assert (renderKey e ∈ loadedFonts) as Hkey.
  { unfold displayedFonts in He. rewrite sort_perm in He.
    assert (e ∈ collected FEATURED_FONTS CFONTS_NAMES libraryFilter
                  loadedFonts) as Hc.
    { unfold searched in He. destruct (trim search); [done|].
      by apply list_elem_of_filter in He as [_ ?]. }
    unfold collected in Hc. rewrite !elem_of_app in Hc.
    destruct Hc as [Hc|[Hc|Hc]]; case_bool_decide;
      try (by apply elem_of_nil in Hc);
      apply list_elem_of_fmap in Hc as (x & -> & Hx); done. }
  assert (renderKey e ∈ loadedFontsRef st) as Href.
  { apply (Hpub snapshot Hsnap). by apply Hlist. }
  split; [exact Href|]. unfold renderFiglet.
  rewrite bool_decide_eq_true_2 by done.
  by destruct (textSync text (renderKey e)).
Qed.
